(** * Monte-Carlo photon transport in a slab: model of MCSimulation.cpp

    The program works on IEEE-754 single-precision numbers ([float]), with a
    few intermediate results in double precision.  Both formats are modelled
    bit for bit with the parametrised specification of binary floating point
    of the Standard Library ([SpecFloat]): a value is a [spec_float], and
    every arithmetic operation rounds to nearest, ties to even.

    - [distr(rng)] is a sequence of deviates given to every run; the position
      in the sequence is threaded through the calls.
    - [log], [std::sin] and [std::cos] belong to the C library and are
      parameters ([Libm]); called on a [float] they return a [float].
    - The [while] loop of a photon takes fuel; the fuel a walk needs is
      bounded below.
    - [printf] is left out: [MCSimulation] returns the two sums and the
      buffer. *)

From Stdlib Require Import ZArith Zpower QArith Qpower Lia Lqa List Bool.
From Stdlib Require Import Floats.SpecFloat.
Import ListNotations.

Local Open Scope Z_scope.

(** ** Single precision *)

Module F32.

Definition prec : Z := 24.
Definition emax : Z := 128.

Definition t := spec_float.

Definition add : t -> t -> t := SFadd prec emax.
Definition sub : t -> t -> t := SFsub prec emax.
Definition mul : t -> t -> t := SFmul prec emax.
Definition div : t -> t -> t := SFdiv prec emax.
Definition sqrt : t -> t := SFsqrt prec emax.
Definition opp : t -> t := SFopp.

Definition eqb : t -> t -> bool := SFeqb.
Definition ltb : t -> t -> bool := SFltb.
Definition leb : t -> t -> bool := SFleb.

(** Conversion of an integer (a literal, or an integer variable of the
    program) to [float]. *)
Definition of_Z (n : Z) : t := binary_normalize prec emax n 0 false.

(** A finite value of any binary format, rounded to [float]. *)
Definition round (x : spec_float) : t :=
  match x with
  | S754_finite s m e => binary_round prec emax s m e
  | _ => x
  end.

Definition zero : t := S754_zero false.
Definition one : t := of_Z 1.
Definition two : t := of_Z 2.
Definition inf : t := S754_infinity false.
Definition nan : t := S754_nan.

End F32.

(** ** Double precision *)

Module F64.

Definition prec : Z := 53.
Definition emax : Z := 1024.

Definition t := spec_float.

Definition add : t -> t -> t := SFadd prec emax.
Definition sub : t -> t -> t := SFsub prec emax.
Definition mul : t -> t -> t := SFmul prec emax.
Definition div : t -> t -> t := SFdiv prec emax.
Definition sqrt : t -> t := SFsqrt prec emax.

Definition eqb : t -> t -> bool := SFeqb.

Definition of_Z (n : Z) : t := binary_normalize prec emax n 0 false.

(** Promotion of a [float] to [double]: the value is kept, the mantissa is
    re-aligned to 53 bits. *)
Definition of_f32 (x : F32.t) : t :=
  match x with
  | S754_finite s m e => binary_round prec emax s m e
  | _ => x
  end.

Definition one : t := of_Z 1.

End F64.

Declare Scope f32_scope.
Delimit Scope f32_scope with f32.
Bind Scope f32_scope with F32.t.
Infix "+" := F32.add : f32_scope.
Infix "-" := F32.sub : f32_scope.
Infix "*" := F32.mul : f32_scope.
Infix "/" := F32.div : f32_scope.
Notation "- x" := (F32.opp x) : f32_scope.
Infix "==" := F32.eqb (at level 70, no associativity) : f32_scope.
Infix "<?" := F32.ltb (at level 70, no associativity) : f32_scope.
Infix "<=?" := F32.leb (at level 70, no associativity) : f32_scope.

(** The float nearest to the fraction [n / p] of two integers that are
    floats themselves; the decimal literals of the source ([0.75f] is
    [lit 75 100]) are such fractions. *)
Definition lit (n : Z) (p : Z) : F32.t := F32.div (F32.of_Z n) (F32.of_Z p).

(** ** The uniform source

    [distr(rng)] hands out the next deviate of a sequence; the sequence is a
    parameter of every run and the position in it is the threaded state. *)

Definition Rand (A : Type) : Type := (nat -> F32.t) -> nat -> A * nat.

Definition ret {A} (a : A) : Rand A := fun _ i => (a, i).
Definition bind {A B} (c : Rand A) (k : A -> Rand B) : Rand B :=
  fun src i => let '(a, j) := c src i in k a src j.
Definition distr : Rand F32.t := fun src i => (src i, S i).

Notation "x <- c ;; k" := (bind c (fun x => k))
  (at level 61, c at next level, right associativity).

(** ** GetCosTheta (lines 15-20) *)

Definition GetCosTheta (g : F32.t) : Rand F32.t :=
  if (g == F32.zero)%f32 then
    xi <- distr ;;
    ret (F32.two * xi - F32.one)%f32
  else
    xi <- distr ;;
    let mu := ((F32.one - g * g) / (F32.one - g + F32.two * g * xi))%f32 in
    ret ((F32.one * g * g - mu * mu) / (F32.two * g))%f32.

(** ** The mathematical library

    [log], [std::sin] and [std::cos] are taken from the C library; they are
    parameters of the model.  [sqrt] is the IEEE operation. *)

Record Libm : Type := {
  logf : F32.t -> F32.t;
  sinf : F32.t -> F32.t;
  cosf : F32.t -> F32.t
}.

(** [#define PI 3.14159265359]: a literal of type [double]. *)
Definition PI : F64.t := F64.div (F64.of_Z 314159265359) (F64.of_Z 100000000000).

(** ** ScatterPhoton (lines 22-51)

    The three reference parameters are returned as a triple. *)

Definition ScatterPhoton (lm : Libm) (mu_x mu_y mu_z g : F32.t)
  : Rand (F32.t * F32.t * F32.t) :=
  cosTheta <- GetCosTheta g ;;
  xi2 <- distr ;;
  let phi := F32.round (F64.mul (F64.mul (F64.of_f32 F32.two) PI) (F64.of_f32 xi2)) in
  let sinTheta := F32.sqrt (F32.one - cosTheta * cosTheta)%f32 in
  let sinPhi := sinf lm phi in
  let cosPhi := cosf lm phi in
  if F64.eqb (F64.of_f32 mu_z) F64.one then
    ret ((sinTheta * cosPhi)%f32, (sinTheta * sinPhi)%f32, cosTheta)
  else if F64.eqb (F64.of_f32 mu_z) (SFopp F64.one) then
    ret ((sinTheta * cosPhi)%f32, (- sinTheta * sinPhi)%f32, (- cosTheta)%f32)
  else
    let denom := F32.round (F64.sqrt (F64.sub F64.one (F64.of_f32 (mu_z * mu_z)%f32))) in
    let muzcosphi := (mu_z * cosPhi)%f32 in
    let ux := (sinTheta * (mu_x * muzcosphi - mu_y * sinPhi) / denom + mu_x * cosTheta)%f32 in
    let uy := (sinTheta * (mu_y * muzcosphi + mu_x * sinPhi) / denom + mu_y * cosTheta)%f32 in
    let uz := (- denom * sinTheta * cosPhi + mu_z * cosTheta)%f32 in
    ret (ux, uy, uz).

(** ** Integer conversions *)

Definition INT_MIN : Z := - 2 ^ 31.
Definition INT_MAX : Z := 2 ^ 31 - 1.

(** [(int) f]: truncation toward zero.  The C++ standard leaves the
    conversion undefined when the truncated value does not fit in [int] (or
    [f] is not a number); the conversion instruction of the x86 targets
    ([cvttss2si]) then delivers [INT_MIN], which is what is modelled. *)
Definition float_to_int (f : F32.t) : Z :=
  match f with
  | S754_zero _ => 0
  | S754_finite s m e =>
      let v := if 0 <=? e then Z.shiftl (Z.pos m) e else Z.shiftr (Z.pos m) (- e) in
      let v := if s then - v else v in
      if (INT_MIN <=? v) && (v <=? INT_MAX) then v else INT_MIN
  | _ => INT_MIN
  end.

(** Conversion of an [int] to [uint32_t], and arithmetic in [uint32_t]. *)
Definition to_u32 (n : Z) : Z := n mod 2 ^ 32.

(** ** The photon and the accumulators *)

Record photon : Type := {
  x : F32.t; y : F32.t; z : F32.t;
  mu_x : F32.t; mu_y : F32.t; mu_z : F32.t;
  weight : F32.t
}.

(** [records] is a raw pointer: the buffer is a function of the offset. *)
Record accum : Type := {
  Rd : F32.t;
  Tt : F32.t;
  records : Z -> F32.t
}.

Definition store (r : Z -> F32.t) (k : Z) (v : F32.t) : Z -> F32.t :=
  fun j => if j =? k then v else r j.

(** [std::max(a, b)] is [(a < b) ? b : a]. *)
Definition std_max (a b : F32.t) : F32.t := if (a <? b)%f32 then b else a.

(** ** MCSimulation (lines 53-117): the constants *)

Definition nrPhotons : N := 1000000.
Definition sigma_a : F32.t := F32.one.
Definition sigma_s : F32.t := F32.two.
Definition sigma_t : F32.t := (sigma_a + sigma_s)%f32.
Definition d : F32.t := lit 5 10.
Definition g : F32.t := lit 75 100.
Definition slabSize : F32.t := F32.two.
Definition m : Z := 10.
Definition survival : F32.t := lit 1 1000.

(** The initial position and direction of every photon (lines 66-69). *)
Definition photon0 : photon :=
  {| x := F32.zero; y := F32.zero; z := F32.zero;
     mu_x := F32.zero; mu_y := F32.zero; mu_z := F32.one;
     weight := F32.one |}.

(** Distance to the edge of the slab (lines 75-79). *)
Definition boundary_dist (p : photon) : F32.t :=
  if (F32.zero <? mu_z p)%f32 then ((d - z p) / mu_z p)%f32
  else if (mu_z p <? F32.zero)%f32 then (- z p / mu_z p)%f32
  else F32.zero.

(** The grid cell of an exit position (lines 86-87). *)
Definition cell (size : Z) (c : F32.t) : Z :=
  float_to_int ((c + slabSize / F32.two) / slabSize * F32.of_Z size)%f32.

(** The guard of line 88. *)
Definition deposit_guard (size : Z) (p : photon) : bool :=
  let xi := cell size (x p) in
  let yi := cell size (y p) in
  (F32.zero <? mu_z p)%f32 && (0 <=? xi) && (x p <? F32.of_Z size)%f32
    && (0 <=? yi) && (to_u32 yi <? size).

(** The offset written at line 89, computed in [uint32_t]. *)
Definition deposit_index (size : Z) (p : photon) : Z :=
  to_u32 (to_u32 (to_u32 (cell size (y p)) * size) + to_u32 (cell size (x p))).

(** The exit branch (lines 83-92). *)
Definition exit_photon (size : Z) (p : photon) (a : accum) : accum :=
  let a1 :=
    if (F32.zero <? mu_z p)%f32
    then {| Rd := Rd a; Tt := (Tt a + weight p)%f32; records := records a |}
    else {| Rd := (Rd a + weight p)%f32; Tt := Tt a; records := records a |} in
  if deposit_guard size p then
    let k := deposit_index size p in
    {| Rd := Rd a1; Tt := Tt a1;
       records := store (records a1) k (records a1 k + weight p)%f32 |}
  else a1.

(** The sampled free path (line 74). *)
Definition free_path (lm : Libm) (xi : F32.t) : F32.t := (- logf lm xi / sigma_t)%f32.

(** Absorption (lines 101-103). *)
Definition absorb (w : F32.t) : F32.t := std_max F32.zero (w - sigma_a / sigma_t)%f32.

(** How one turn of the [while] loop ends. *)
Inductive flow : Type := Next | Break.

(** The body of the [while] loop (lines 73-112). *)
Definition body (lm : Libm) (size : Z) (p : photon) (a : accum)
  : Rand (flow * photon * accum) :=
  xi1 <- distr ;;
  let s := free_path lm xi1 in
  let dist := boundary_dist p in
  if (dist <? s)%f32 then
    ret (Break, p, exit_photon size p a)
  else
    let x' := (x p + s * mu_x p)%f32 in
    let y' := (y p + s * mu_y p)%f32 in
    let z' := (z p + s * mu_z p)%f32 in
    let w1 := absorb (weight p) in
    let moved w := {| x := x'; y := y'; z := z';
                      mu_x := mu_x p; mu_y := mu_y p; mu_z := mu_z p;
                      weight := w |} in
    let scatter w :=
      u <- ScatterPhoton lm (mu_x p) (mu_y p) (mu_z p) g ;;
      let '(ux, uy, uz) := u in
      ret (Next, {| x := x'; y := y'; z := z';
                    mu_x := ux; mu_y := uy; mu_z := uz; weight := w |}, a) in
    if (w1 <? survival)%f32 then
      xi3 <- distr ;;
      if (F32.one / F32.of_Z m <? xi3)%f32 then ret (Break, moved w1, a)
      else scatter (w1 * F32.of_Z m)%f32
    else scatter w1.

(** The [while] loop of one photon (line 72); [None] when the fuel does not
    suffice. *)
Fixpoint while_loop (lm : Libm) (size : Z) (fuel : nat) (p : photon) (a : accum)
  : Rand (option (photon * accum)) :=
  if (weight p == F32.zero)%f32 then ret (Some (p, a))
  else
    match fuel with
    | O => ret None
    | S fuel' =>
        r <- body lm size p a ;;
        let '(f, p', a') := r in
        match f with
        | Break => ret (Some (p', a'))
        | Next => while_loop lm size fuel' p' a'
        end
    end.

(** The [for] loop over the photons and the two sums (lines 55, 62-65). *)
Definition scale : F32.t := (F32.one / F32.of_Z (Z.of_N nrPhotons))%f32.

Definition one_photon (lm : Libm) (size : Z) (fuel : nat) (c : Rand (option accum))
  : Rand (option accum) :=
  o <- c ;;
  match o with
  | None => ret None
  | Some a =>
      r <- while_loop lm size fuel photon0 a ;;
      ret (option_map snd r)
  end.

Definition photons (lm : Libm) (size : Z) (fuel : nat) (n : N) (a : accum)
  : Rand (option accum) :=
  N.iter n (one_photon lm size fuel) (ret (Some a)).

Definition MCSimulation (lm : Libm) (fuel : nat) (records : Z -> F32.t) (size : Z)
  : Rand (option accum) :=
  photons lm size fuel nrPhotons
    {| Rd := F32.zero; Tt := F32.zero; records := records |}.

(** What line 116 prints. *)
Definition printed (a : accum) : F32.t * F32.t :=
  ((Rd a * scale)%f32, (Tt a * scale)%f32).

(** ** main (lines 119-156) *)

(** [std::min(a, b)] is [(b < a) ? b : a]. *)
Definition std_min (a b : F32.t) : F32.t := if (b <? a)%f32 then b else a.

(** [(unsigned char) f]: the conversion to [int] as above, of which the low
    byte is kept; the C++ standard leaves it undefined when the truncated
    value is not in [0, 255]. *)
Definition float_to_uchar (f : F32.t) : Z := float_to_int f mod 256.

(** [float color[3]] of line 123. *)
Definition color : list F32.t := [F32.zero; lit 77 100; lit 80 100].

(** One byte of a pixel (lines 139-141), for the component [k] of the
    colour. *)
Definition channel (k : nat) (pixel : F32.t) : Z :=
  float_to_uchar (F32.of_Z 255 * nth k color F32.zero * std_min F32.one pixel)%f32.

(** [ofs << n] for an unsigned integer: its decimal digits. *)
Fixpoint uint_bytes (u : Decimal.uint) : list Z :=
  match u with
  | Decimal.Nil => []
  | Decimal.D0 u' => 48 :: uint_bytes u'
  | Decimal.D1 u' => 49 :: uint_bytes u'
  | Decimal.D2 u' => 50 :: uint_bytes u'
  | Decimal.D3 u' => 51 :: uint_bytes u'
  | Decimal.D4 u' => 52 :: uint_bytes u'
  | Decimal.D5 u' => 53 :: uint_bytes u'
  | Decimal.D6 u' => 54 :: uint_bytes u'
  | Decimal.D7 u' => 55 :: uint_bytes u'
  | Decimal.D8 u' => 56 :: uint_bytes u'
  | Decimal.D9 u' => 57 :: uint_bytes u'
  end.

(** The header written at line 137: ["P6\n"], the size twice, ["\n255\n"]. *)
Definition header (size : Z) : list Z :=
  [80; 54; 10] ++ uint_bytes (N.to_uint (Z.to_N size)) ++ [32]
    ++ uint_bytes (N.to_uint (Z.to_N size)) ++ [10; 50; 53; 53; 10].

(** The bytes written by the loop of lines 138-144. *)
Definition payload (size : Z) (pixels : Z -> F32.t) : list Z :=
  flat_map (fun k => [channel 0 (pixels (Z.of_nat k));
                      channel 1 (pixels (Z.of_nat k));
                      channel 2 (pixels (Z.of_nat k))])
           (seq 0 (Z.to_nat (size * size))).

(** The inner loop of lines 130-132, after pass [i]. *)
Definition normalise (size : Z) (i : Z) (recs pixels : Z -> F32.t) : Z -> F32.t :=
  fun j => if (0 <=? j) && (j <? size * size)
           then (recs j / F32.of_Z i)%f32 else pixels j.

(** The loop of lines 128-133, for [n] passes from pass [i] on. *)
Fixpoint passes (lm : Libm) (fuel : nat) (size : Z) (n : nat) (i : Z)
                (recs pixels : Z -> F32.t)
  : Rand (option ((Z -> F32.t) * (Z -> F32.t))) :=
  match n with
  | O => ret (Some (recs, pixels))
  | S n' =>
      o <- MCSimulation lm fuel recs size ;;
      match o with
      | None => ret None
      | Some a =>
          passes lm fuel size n' (i + 1) (records a)
                 (normalise size i (records a) pixels)
      end
  end.

(** [main]: what is written to the file.  The two buffers come from [new]
    and hold whatever the memory held; [i] runs from [1] to [nrPasses - 1]. *)
Definition main (lm : Libm) (fuel : nat) (recs pixels : Z -> F32.t)
  : Rand (option (list Z)) :=
  let size := 512 in
  let nrPasses := 64 in
  o <- passes lm fuel size (Z.to_nat (nrPasses - 1)) 1 recs pixels ;;
  match o with
  | None => ret None
  | Some (_, pixels') => ret (Some (header size ++ payload size pixels'))
  end.

(** ** Values and predicates used in the statements *)

(** The number a mantissa and an exponent stand for. *)
Definition F2Q (m e : Z) : Q := (inject_Z m * (2 # 1) ^ e)%Q.

(** The exact value of a finite float; [0] for the others. *)
Definition B2Q (f : spec_float) : Q :=
  match f with
  | S754_finite s m e => F2Q (if s then Z.neg m else Z.pos m) e
  | _ => 0%Q
  end.

Definition is_finite (f : spec_float) : bool :=
  match f with
  | S754_zero _ | S754_finite _ _ _ => true
  | _ => false
  end.

(** A well-formed single-precision datum. *)
Definition valid32 (f : F32.t) : bool := valid_binary F32.prec F32.emax f.

(** [f] is a non-negative finite float of value at most [N]. *)
Definition bounded_by (N : Z) (f : spec_float) : Prop :=
  match f with
  | S754_zero _ => True
  | S754_finite false m e => (F2Q (Z.pos m) e <= inject_Z N)%Q
  | _ => False
  end.

(** What [k] right shifts of the rounding procedure keep of [m0]. *)
Definition shr_inv (m0 : Z) (k : Z) (mrs : shr_record) : Prop :=
  0 <= shr_m mrs /\ shr_m mrs * 2 ^ k <= m0 /\
  (shr_r mrs = true \/ shr_s mrs = true -> shr_m mrs * 2 ^ k < m0).

(** The inversion formula as the specification words it, with numerator
    [1 + g^2 - mu^2]. *)
Definition HG_inversion (g xi : F32.t) : F32.t :=
  if (g == F32.zero)%f32 then (F32.two * xi - F32.one)%f32
  else
    let mu := ((F32.one - g * g) / (F32.one - g + F32.two * g * xi))%f32 in
    ((F32.one + g * g - mu * mu) / (F32.two * g))%f32.

(** A deviate of the uniform source: a float of [[0, 1)]. *)
Definition unit_deviate (xi : F32.t) : bool :=
  (F32.zero <=? xi)%f32 && (xi <? F32.one)%f32.

(** Squared Euclidean norm of a direction, when its components are finite. *)
Definition norm2 (v : F32.t * F32.t * F32.t) : option Q :=
  let '(a, b, c) := v in
  if is_finite a && is_finite b && is_finite c
  then Some (B2Q a * B2Q a + B2Q b * B2Q b + B2Q c * B2Q c)%Q
  else None.

(** The norm of [v] is within [tol] of [1]. *)
Definition unit_within (tol : Q) (v : F32.t * F32.t * F32.t) : bool :=
  match norm2 v with
  | Some n => Qle_bool ((1 - tol) * (1 - tol)) n && Qle_bool n ((1 + tol) * (1 + tol))
  | None => false
  end.

(** The weight of a photon after [k] absorptions. *)
Definition weight_after (k : nat) : F32.t := Nat.iter k absorb F32.one.

(** The photons met while walks are simulated: the initial photon, and what
    a turn of the loop makes of a photon that is still alive. *)
Inductive visited (lm : Libm) (size : Z) (src : nat -> F32.t) : photon -> Prop :=
| visited_init : visited lm size src photon0
| visited_step p a i f p' a' j :
    visited lm size src p ->
    (weight p == F32.zero)%f32 = false ->
    body lm size p a src i = (f, p', a', j) ->
    visited lm size src p'.

(** The two sums count at most [k] photons. *)
Definition sums_within (k : Z) (a : accum) : Prop :=
  exists nR nT, 0 <= nR /\ 0 <= nT /\ nR + nT = k /\
                bounded_by nR (Rd a) /\ bounded_by nT (Tt a).

(** The deviates left to a photon that has been absorbed [k] times. *)
Definition budget (k : nat) : nat :=
  match k with 0 => 10 | 1 => 7 | 2 => 4 | _ => 0 end%nat.

Definition same_sums (a b : accum) : Prop := Rd a = Rd b /\ Tt a = Tt b.

(** Two runs agree when they end alike, with the same sums. *)
Definition agree (r1 r2 : option accum * nat) : Prop :=
  snd r1 = snd r2 /\
  match fst r1, fst r2 with
  | Some a, Some b => same_sums a b
  | None, None => True
  | _, _ => False
  end.

(** [r] is a zero or a finite float of sign [sx] and magnitude at most [B]. *)
Definition rounds_below (sx : bool) (B : Q) (r : spec_float) : Prop :=
  match r with
  | S754_zero s => s = sx
  | S754_finite s m e => s = sx /\ (F2Q (Z.pos m) e <= B)%Q /\ e <= 104
  | _ => False
  end.

(** A zero, a finite float or an infinity of sign [sx]. *)
Definition signed (sx : bool) (r : spec_float) : Prop :=
  match r with
  | S754_zero s | S754_infinity s | S754_finite s _ _ => s = sx
  | S754_nan => False
  end.

(** A magnitude of at most [1]. *)
Definition unit_magnitude (r : spec_float) : Prop :=
  match r with
  | S754_zero _ => True
  | S754_finite _ m e => (F2Q (Z.pos m) e <= 1)%Q
  | _ => False
  end.

(** [f] is a zero, a negative float, or a positive one of value at most [B]. *)
Definition upto (B : Q) (f : spec_float) : Prop :=
  match f with
  | S754_zero _ | S754_finite true _ _ | S754_infinity true => True
  | S754_finite false m e => (F2Q (Z.pos m) e <= B)%Q /\ e <= 104
  | _ => False
  end.

(** A pixel that is zero, positive, plus infinity or not a number. *)
Definition not_negative (p : F32.t) : bool :=
  match p with
  | S754_zero _ | S754_nan | S754_infinity false | S754_finite false _ _ => true
  | _ => false
  end.

(** ** Sample data for the worked runs *)

Definition half : F32.t := lit 5 10.

(** [2 * PI * 0.5] as line 25 computes it: [3.1415927]. *)
Definition pi32 : F32.t := S754_finite false 13176795 (-22).

(** [log], [sin] and [cos] at the few points the runs below need, correctly
    rounded: [log 0 = -inf], [log 0.5 = -0.6931472], [log (1/128) = -4.8520303],
    [sin 0 = 0], [cos 0 = 1], [sin 3.1415927 = -8.742278e-8],
    [cos 3.1415927 = -1]. *)
Definition libm_tab : Libm :=
  {| logf := fun v => if (v == F32.zero)%f32 then S754_infinity true
                      else if (v == half)%f32 then S754_finite true 11629080 (-24)
                      else if (v == lit 1 128)%f32 then S754_finite true 10175445 (-21)
                      else F32.nan;
     sinf := fun v => if (v == F32.zero)%f32 then F32.zero
                      else if (v == pi32)%f32 then S754_finite true 12303662 (-47)
                      else F32.nan;
     cosf := fun v => if (v == F32.zero)%f32 then F32.one
                      else if (v == pi32)%f32 then (- F32.one)%f32
                      else F32.nan |}.

Definition seq_of (l : list F32.t) : nat -> F32.t := fun i => nth i l F32.zero.

Definition acc0 : accum :=
  {| Rd := F32.zero; Tt := F32.zero; records := fun _ => F32.zero |}.

(** The deviate for which the sampled cosine is exactly [0] at [g = 0.75]:
    about [0.2222]. *)
Definition xi_level : F32.t := S754_finite false 14913080 (-26).

(** The deviates of the first run: a photon scattered into a direction
    parallel to the faces. *)
Definition deviates1 : list F32.t := [half; xi_level; F32.zero; half].
Definition run1 : nat -> F32.t := seq_of deviates1.

(** The photon of the first run after its first scattering: at depth
    [0.231], direction [(1, 0, 0)]. *)
Definition level_photon : photon :=
  {| x := F32.zero; y := F32.zero; z := free_path libm_tab half;
     mu_x := F32.one; mu_y := F32.zero; mu_z := F32.zero;
     weight := weight_after 1 |}.

(** The deviates of the second run: a photon that travels sideways for
    [1.61] before it leaves through the far face. *)
Definition deviates2 : list F32.t :=
  [half; lit 9 32; F32.zero; lit 1 128; half; half; half].
Definition run2 : nat -> F32.t := seq_of deviates2.

(** The photon of the second run when it leaves: [x = 1.6104], [y = 0],
    [z = 0.3804], direction [(0.157, -5e-8, 0.988)]. *)
Definition far_photon : photon :=
  {| x := S754_finite false 13509314 (-23); y := F32.zero;
     z := S754_finite false 12763092 (-25);
     mu_x := S754_finite false 10528338 (-26);
     mu_y := S754_finite true 11921197 (-47);
     mu_z := S754_finite false 16569463 (-24);
     weight := weight_after 2 |}.

(** A photon leaving through the far face beside the grid, at [x = 1.5]. *)
Definition side_photon : photon :=
  {| x := lit 15 10; y := F32.zero; z := lit 4 10;
     mu_x := F32.zero; mu_y := F32.zero; mu_z := F32.one;
     weight := weight_after 2 |}.

(** The same, in the last row of the grid ([y = 255/256]). *)
Definition corner_photon : photon :=
  {| x := lit 15 10; y := lit 255 256; z := lit 4 10;
     mu_x := F32.zero; mu_y := F32.zero; mu_z := F32.one;
     weight := weight_after 2 |}.

(** A photon that has been absorbed twice and is about to be absorbed a
    third time. *)
Definition late_photon : photon :=
  {| x := F32.zero; y := F32.zero; z := F32.zero;
     mu_x := F32.zero; mu_y := F32.zero; mu_z := F32.one;
     weight := weight_after 2 |}.

(** The photon of the second run after its first turn. *)
Definition mid_photon : photon :=
  Eval vm_compute in snd (fst (fst (body libm_tab 512 photon0 acc0 run2 0%nat))).

(** A photon whose direction is not a number. *)
Definition nan_photon : photon :=
  {| x := F32.zero; y := F32.zero; z := free_path libm_tab half;
     mu_x := F32.nan; mu_y := F32.nan; mu_z := F32.nan;
     weight := weight_after 1 |}.

(** Closed statements are settled by evaluation. *)
Ltac evaluate := vm_compute; first [reflexivity | discriminate | exact I].

(** * Properties *)

(** ** The phase function *)

(** C1. For [g = 0] the sampler returns [2 xi - 1].  For the program's
    [g = 0.75] and the deviate [0] it returns [-13981013 * 2^-23], about
    [-1.667]: the numerator computed is [1 * g^2 - mu^2].  The inversion
    formula with numerator [1 + g^2 - mu^2] gives [-1] there. *)
Theorem GetCosTheta_numerator :
  (forall src i,
      GetCosTheta F32.zero src i = ((F32.two * src i - F32.one)%f32, S i)) /\
  fst (GetCosTheta g (seq_of [F32.zero]) 0%nat) = S754_finite true 13981013 (-23) /\
  HG_inversion g F32.zero = (- F32.one)%f32 /\
  (fst (GetCosTheta g (seq_of [F32.zero]) 0%nat) == HG_inversion g F32.zero)%f32 = false.
Proof.
  split; [intros src i; reflexivity|].
  repeat split; evaluate.
Qed.

(** C2. With [g = 0.75], which lies in (-1, 1), and the deviate [0], which
    lies in [0, 1), the sampler returns a finite value below [-1]. *)
Theorem GetCosTheta_out_of_range :
  (- F32.one <? g)%f32 = true /\ (g <? F32.one)%f32 = true /\
  unit_deviate F32.zero = true /\
  let c := fst (GetCosTheta g (seq_of [F32.zero]) 0%nat) in
  is_finite c = true /\ (c <? - F32.one)%f32 = true /\
  (B2Q c <= - (5 # 3) + (1 # 1000000))%Q.
Proof.
  repeat split; evaluate.
Qed.

(** ** The rotation *)

Lemma GetCosTheta_g_zero l :
  GetCosTheta g (seq_of (F32.zero :: l)) 0%nat = (S754_finite true 13981013 (-23), 1%nat).
Proof. evaluate. Qed.

(** C3. With [g = 0.75] and a first deviate [0] the sampled cosine is below
    [-1], so [sinTheta] is the square root of a negative number: whatever the
    direction, the second deviate and the library's sine and cosine are, the
    rotation yields a direction with [NaN] in it, in each of its three
    branches.  From the initial direction [(0, 0, 1)], a unit vector, it
    yields [(NaN, NaN, -1.667)]. *)
Theorem ScatterPhoton_not_unit (lm : Libm) (mx my mz xi2 : F32.t) :
  unit_within (1 # 10000)
    (fst (ScatterPhoton lm mx my mz g (seq_of [F32.zero; xi2]) 0%nat)) = false /\
  unit_within (1 # 10000) (F32.zero, F32.zero, F32.one) = true /\
  ScatterPhoton lm F32.zero F32.zero F32.one g (seq_of [F32.zero; xi2]) 0%nat
    = ((F32.nan, F32.nan, S754_finite true 13981013 (-23)), 2%nat) /\
  (9 # 4 < B2Q (S754_finite true 13981013 (-23)) * B2Q (S754_finite true 13981013 (-23)))%Q.
Proof.
  assert (Hsin : F32.sqrt (F32.one - S754_finite true 13981013 (-23)
                                     * S754_finite true 13981013 (-23))%f32 = S754_nan)
    by evaluate.
  split; [|split; [evaluate|split; [|evaluate]]].
  - unfold ScatterPhoton, bind. rewrite GetCosTheta_g_zero.
    unfold distr, ret. cbv beta iota zeta. rewrite Hsin.
    destruct (F64.eqb (F64.of_f32 mz) F64.one); [reflexivity|].
    destruct (F64.eqb (F64.of_f32 mz) (SFopp F64.one)); reflexivity.
  - unfold ScatterPhoton, bind. rewrite GetCosTheta_g_zero.
    unfold distr, ret. cbv beta iota zeta. rewrite Hsin.
    change (F64.eqb (F64.of_f32 F32.one) F64.one) with true.
    reflexivity.
Qed.

(** ** The boundary test *)

Lemma boundary_dist_level (p : photon) (s : bool) :
  mu_z p = S754_zero s -> boundary_dist p = F32.zero.
Proof. intros H. unfold boundary_dist. rewrite H. reflexivity. Qed.

(** With [mu_z = 0] any positive free path takes the exit branch, and the
    weight goes to [Rd]. *)
Lemma level_exit lm size p a src i (s : bool) :
  mu_z p = S754_zero s ->
  (F32.zero <? free_path lm (src i))%f32 = true ->
  body lm size p a src i = (Break, p, exit_photon size p a, S i) /\
  exit_photon size p a
    = {| Rd := (Rd a + weight p)%f32; Tt := Tt a; records := records a |}.
Proof.
  intros Hz Hs. split.
  - unfold body, bind, distr, ret. cbv beta iota zeta.
    rewrite (boundary_dist_level p s Hz), Hs. reflexivity.
  - unfold exit_photon, deposit_guard. rewrite Hz. reflexivity.
Qed.

(** C4. A photon whose [mu_z] is zero gets the boundary distance [0], not an
    infinite one, and any positive free path makes it leave through the exit
    branch, its weight added to [Rd].  In the run with the deviates
    [0.5, 0.2222, 0, 0.5], all of [[0, 1)], the first turn scatters the photon
    into the direction [(1, 0, 0)] at depth [z = 0.231], inside the slab; the
    second turn finds [s > dist = 0] and ends the walk that way. *)
Theorem level_photon_exits :
  (forall lm size p a src i s,
      mu_z p = S754_zero s ->
      (F32.zero <? free_path lm (src i))%f32 = true ->
      boundary_dist p = F32.zero /\
      body lm size p a src i = (Break, p, exit_photon size p a, S i) /\
      Rd (exit_photon size p a) = (Rd a + weight p)%f32) /\
  forallb unit_deviate deviates1 = true /\
  body libm_tab 512 photon0 acc0 run1 0%nat = (Next, level_photon, acc0, 3%nat) /\
  mu_z level_photon = F32.zero /\
  (F32.zero <? z level_photon)%f32 = true /\ (z level_photon <? d)%f32 = true /\
  (boundary_dist level_photon <? free_path libm_tab half)%f32 = true /\
  body libm_tab 512 level_photon acc0 run1 3%nat
    = (Break, level_photon, exit_photon 512 level_photon acc0, 4%nat) /\
  Rd (exit_photon 512 level_photon acc0) = weight level_photon /\
  while_loop libm_tab 512 3 photon0 acc0 run1 0%nat
    = (Some (level_photon, exit_photon 512 level_photon acc0), 4%nat).
Proof.
  split.
  - intros lm size p a src i s Hz Hs.
    destruct (level_exit lm size p a src i s Hz Hs) as [Hb He].
    split; [exact (boundary_dist_level p s Hz)|]. split; [exact Hb|].
    rewrite He. reflexivity.
  - repeat split; evaluate.
Qed.

(** ** The exit branch *)

(** C5. A photon that leaves through the far face at [x = 1.5], beyond the
    lateral extent [[-1, 1)] of the grid, projects to column [640] of a grid of
    [512] columns.  The guard of line 88 compares [x], not [xi], with [size]
    and lets it pass: the weight is added to [Tt] and also written into the
    buffer, at offset [256 * 512 + 640].  The walk with the deviates
    [0.5, 9/32, 0, 1/128, 0.5, 0.5, 0.5] ends that way at [x = 1.61], column
    [668]. *)
Theorem exit_beside_grid_is_recorded :
  (cell 512 (x side_photon) = 640 /\ cell 512 (y side_photon) = 256 /\
   deposit_guard 512 side_photon = true /\
   deposit_index 512 side_photon = 256 * 512 + 640 /\
   Tt (exit_photon 512 side_photon acc0) = weight side_photon /\
   Rd (exit_photon 512 side_photon acc0) = F32.zero /\
   records (exit_photon 512 side_photon acc0) (256 * 512 + 640) = weight side_photon /\
   records acc0 (256 * 512 + 640) = F32.zero) /\
  (forallb unit_deviate deviates2 = true /\
   while_loop libm_tab 512 3 photon0 acc0 run2 0%nat
     = (Some (far_photon, exit_photon 512 far_photon acc0), 7%nat) /\
   cell 512 (x far_photon) = 668 /\ cell 512 (y far_photon) = 256 /\
   Tt (exit_photon 512 far_photon acc0) = weight far_photon /\
   records (exit_photon 512 far_photon acc0) (256 * 512 + 668) = weight far_photon).
Proof.
  split; repeat split; evaluate.
Qed.

(** C6. For a photon that leaves at [x = 1.5], [y = 255/256] the guard holds
    with [xi = 640] and [yi = 511]; the offset written is [262272], beyond the
    [512 * 512] cells of the grid.  For the photon the second run ends with,
    the guard holds with [xi = 668]. *)
Theorem deposit_index_out_of_grid :
  deposit_guard 512 corner_photon = true /\
  cell 512 (x corner_photon) = 640 /\ cell 512 (y corner_photon) = 511 /\
  deposit_index 512 corner_photon = 262272 /\
  512 * 512 <= deposit_index 512 corner_photon /\
  records (exit_photon 512 corner_photon acc0) 262272 = weight corner_photon /\
  deposit_guard 512 far_photon = true /\
  (cell 512 (x far_photon) <? 512) = false.
Proof.
  repeat split; evaluate.
Qed.

(** ** Rounding

    What the rounding procedure of [SpecFloat] does to a positive number that
    an integer below [2^24] bounds: the result is finite and the bound still
    holds.  Single precision represents such an integer exactly, so rounding
    to nearest cannot step over it. *)

Lemma two_ne0 : ~ ((2 # 1) == 0)%Q.
Proof. discriminate. Qed.

Lemma pow2_pos e : (0 < (2 # 1) ^ e)%Q.
Proof. apply Qpower_0_lt. reflexivity. Qed.

Lemma F2Q_shift m k e : 0 <= k -> (F2Q (m * 2 ^ k) e == F2Q m (e + k))%Q.
Proof.
  intros Hk. unfold F2Q.
  rewrite Qpower_plus by apply two_ne0.
  rewrite inject_Z_mult, (Zpower_Qpower 2 k Hk). change (inject_Z 2) with (2#1)%Q. ring.
Qed.

Lemma F2Q_le_mono m1 m2 e : m1 <= m2 -> (F2Q m1 e <= F2Q m2 e)%Q.
Proof.
  intros H. unfold F2Q. apply Qmult_le_compat_r.
  - rewrite <- Zle_Qle. exact H.
  - apply Qlt_le_weak, pow2_pos.
Qed.

Lemma iter_pos_nat {A} (f : A -> A) p x : iter_pos f p x = Nat.iter (Pos.to_nat p) f x.
Proof.
  revert x. induction p as [p IH|p IH|]; intros x; cbn [iter_pos].
  - rewrite !IH, Pos2Nat.inj_xI, <- Nat.iter_add, <- Nat.iter_succ_r.
    f_equal. lia.
  - rewrite !IH, Pos2Nat.inj_xO, <- Nat.iter_add.
    f_equal. lia.
  - reflexivity.
Qed.

Lemma shr_1_inv m0 k mrs : 0 <= k -> shr_inv m0 k mrs -> shr_inv m0 (k + 1) (shr_1 mrs).
Proof.
  intros Hk (Hpos & Hle & Hex). destruct mrs as [mm r s]. simpl in *.
  assert (H2 : 0 < 2 ^ k) by (apply Z.pow_pos_nonneg; lia).
  assert (E : 2 ^ (k + 1) = 2 * 2 ^ k) by (rewrite Z.pow_add_r, Z.pow_1_r by lia; lia).
  unfold shr_inv. rewrite E.
  destruct mm as [|[p|p|]|p]; try lia; cbn [shr_1 shr_m shr_r shr_s];
    (repeat split; try lia;
     intros [Hr|Hs]; try discriminate; try lia;
     apply orb_true_iff in Hs; specialize (Hex Hs); lia).
Qed.

Lemma shr_iter_inv m0 n : 0 <= m0 ->
  shr_inv m0 (Z.of_nat n) (Nat.iter n shr_1 (Build_shr_record m0 false false)).
Proof.
  intros H0. induction n as [|n IH].
  - simpl. unfold shr_inv. simpl. lia.
  - rewrite Nat2Z.inj_succ, <- Z.add_1_r. cbn [Nat.iter nat_rect].
    apply shr_1_inv; [lia | exact IH].
Qed.

Lemma shr_spec m0 e n : 0 <= m0 ->
  let '(mrs, e') := shr (Build_shr_record m0 false false) e n in
  (n <= 0 /\ mrs = Build_shr_record m0 false false /\ e' = e) \/
  (0 < n /\ e' = e + n /\ shr_inv m0 n mrs).
Proof.
  intros H0. unfold shr. destruct n as [|p|p].
  - left. repeat split; lia.
  - right. rewrite iter_pos_nat. split; [lia|]. split; [reflexivity|].
    rewrite <- (positive_nat_Z p). apply shr_iter_inv; assumption.
  - left. repeat split; lia.
Qed.

Lemma rne_cases mrs :
  let r := round_nearest_even (shr_m mrs) (loc_of_shr_record mrs) in
  r = shr_m mrs \/ (r = shr_m mrs + 1 /\ (shr_r mrs = true \/ shr_s mrs = true)).
Proof.
  destruct mrs as [mm [|] [|]]; simpl; auto.
  destruct (Z.even mm); auto.
Qed.

Lemma digits2_pos_le p : 2 ^ Z.pos (digits2_pos p) <= 2 * Z.pos p.
Proof.
  induction p as [p IH|p IH|]; cbn [digits2_pos]; try (simpl; lia);
  rewrite Pos2Z.inj_succ, Z.pow_succ_r by lia; lia.
Qed.

Lemma F2Q_le_int m e N : e <= 0 -> ((F2Q m e <= inject_Z N)%Q <-> m <= N * 2 ^ (- e)).
Proof.
  intros He.
  assert (E : (inject_Z N == F2Q (N * 2 ^ (- e)) e)%Q).
  { rewrite F2Q_shift by lia. replace (e + - e) with 0 by lia. unfold F2Q. simpl. ring. }
  rewrite E. split.
  - intros H. destruct (Z_le_gt_dec m (N * 2 ^ (- e))) as [Hle|Hgt]; [exact Hle|].
    exfalso. assert (Hlt : N * 2 ^ (- e) < m) by lia.
    assert (HH : (F2Q (N * 2 ^ (- e)) e < F2Q m e)%Q).
    { unfold F2Q. apply Qmult_lt_compat_r; [apply pow2_pos|]. rewrite <- Zlt_Qlt. exact Hlt. }
    lra.
  - apply F2Q_le_mono.
Qed.

Lemma F2Q_ge_pow (m : positive) e : ((2 # 1) ^ e <= F2Q (Z.pos m) e)%Q.
Proof.
  unfold F2Q. rewrite <- (Qmult_1_l ((2 # 1) ^ e)) at 1.
  apply Qmult_le_compat_r; [|apply Qlt_le_weak, pow2_pos].
  change 1%Q with (inject_Z 1). rewrite <- Zle_Qle. lia.
Qed.

Lemma F2Q_small_exp (m : positive) e N :
  N < 2 ^ 24 -> (F2Q (Z.pos m) e <= inject_Z N)%Q -> e < 24.
Proof.
  intros HN H.
  apply (Qpower_lt_compat_l_inv (2 # 1)); [|reflexivity].
  apply Qle_lt_trans with (inject_Z N).
  - apply Qle_trans with (F2Q (Z.pos m) e); [apply F2Q_ge_pow | exact H].
  - rewrite <- (Zpower_Qpower 2 24) by lia. rewrite <- Zlt_Qlt. exact HN.
Qed.

Lemma shr_fexp_spec m e : 0 <= m ->
  let '(mrs, e') := shr_fexp 24 128 m e loc_Exact in
  (mrs = Build_shr_record m false false /\ e' = e) \/
  (e < e' /\ e' = fexp 24 128 (Zdigits2 m + e) /\ shr_inv m (e' - e) mrs).
Proof.
  intros H0. unfold shr_fexp. cbn [shr_record_of_loc].
  pose proof (shr_spec m e (fexp 24 128 (Zdigits2 m + e) - e) H0) as H.
  destruct (shr _ _ _) as [mrs e']. destruct H as [(_ & H1 & H2)|(H1 & H2 & H3)].
  - left. auto.
  - right. split; [lia|]. split; [lia|]. replace (e' - e) with (fexp 24 128 (Zdigits2 m + e) - e) by lia.
    exact H3.
Qed.

Lemma shr_fexp_le m e : 0 <= m ->
  let '(mrs, e') := shr_fexp 24 128 m e loc_Exact in
  0 <= shr_m mrs /\ (F2Q (shr_m mrs) e' <= F2Q m e)%Q.
Proof.
  intros H0. pose proof (shr_fexp_spec m e H0) as H.
  destruct (shr_fexp _ _ _ _ _) as [mrs e'].
  destruct H as [(-> & ->)|(H1 & _ & (Hp & Hle & _))].
  - simpl. split; [exact H0|]. apply Qle_refl.
  - split; [exact Hp|]. replace e' with (e + (e' - e)) at 1 by lia.
    rewrite <- F2Q_shift by lia. apply F2Q_le_mono. exact Hle.
Qed.

Lemma round_aux_bounded (m : positive) e N :
  0 <= N < 2 ^ 24 -> (F2Q (Z.pos m) e <= inject_Z N)%Q ->
  bounded_by N (binary_round_aux 24 128 false (Z.pos m) e loc_Exact).
Proof.
  intros HN Hm. unfold binary_round_aux.
  pose proof (shr_fexp_spec (Z.pos m) e ltac:(lia)) as H1.
  destruct (shr_fexp 24 128 (Z.pos m) e loc_Exact) as [mrs1 e1].
  pose proof (rne_cases mrs1) as Hr. cbv zeta in Hr.
  set (m2 := round_nearest_even (shr_m mrs1) (loc_of_shr_record mrs1)) in *.
  assert (H2 : 0 <= m2 /\ (F2Q m2 e1 <= inject_Z N)%Q).
  { destruct H1 as [(-> & ->)|(Hlt & He1 & (Hp & Hle & Hex))].
    - simpl in Hr. destruct Hr as [->|(_ & [?|?])]; try discriminate. split; [lia|exact Hm].
    - destruct Hr as [->|(-> & Hin)].
      + split; [exact Hp|]. apply Qle_trans with (F2Q (Z.pos m) e); [|exact Hm].
        replace e1 with (e + (e1 - e)) by lia.
        rewrite <- F2Q_shift by lia. apply F2Q_le_mono. exact Hle.
      + split; [lia|]. specialize (Hex Hin).
        destruct (Z_le_gt_dec e1 0) as [Hneg|Hpos].
        * apply F2Q_le_int; [exact Hneg|].
          apply F2Q_le_int in Hm; [|lia].
          replace (- e) with (- e1 + (e1 - e)) in Hm by lia.
          rewrite Z.pow_add_r in Hm by lia.
          assert (0 < 2 ^ (e1 - e)) by (apply Z.pow_pos_nonneg; lia).
          nia.
        * exfalso.
          unfold fexp, emin in He1. cbn [Zdigits2] in He1.
          pose proof (digits2_pos_le m) as Hd.
          set (dg := Z.pos (digits2_pos m)) in *.
          assert (Hdg : 24 <= dg - 1 + e) by lia.
          assert (Hq : (inject_Z (2 ^ (dg - 1)) <= inject_Z (Z.pos m))%Q).
          { rewrite <- Zle_Qle. assert (2 ^ dg = 2 * 2 ^ (dg - 1)).
            { replace dg with (Z.succ (dg - 1)) at 1 by lia. apply Z.pow_succ_r. lia. }
            lia. }
          assert (Hv : ((2 # 1) ^ 24 <= F2Q (Z.pos m) e)%Q).
          { apply Qle_trans with ((2 # 1) ^ (dg - 1 + e))%Q.
            - apply Qpower_le_compat_l; [lia | discriminate].
            - rewrite Qpower_plus by apply two_ne0. unfold F2Q.
              apply Qmult_le_compat_r; [|apply Qlt_le_weak, pow2_pos].
              rewrite <- (Zpower_Qpower 2 (dg - 1)) by lia. exact Hq. }
          assert (HN' : (inject_Z N < (2 # 1) ^ 24)%Q).
          { rewrite <- (Zpower_Qpower 2 24) by lia. rewrite <- Zlt_Qlt. lia. }
          lra. }
  destruct H2 as [Hm2 Hb2].
  pose proof (shr_fexp_le m2 e1 Hm2) as H3.
  destruct (shr_fexp 24 128 m2 e1 loc_Exact) as [mrs3 e3].
  destruct H3 as [Hp3 Hle3].
  destruct (shr_m mrs3) as [|q|q] eqn:E3.
  - exact I.
  - assert (Hb : (F2Q (Z.pos q) e3 <= inject_Z N)%Q) by lra.
    pose proof (F2Q_small_exp q e3 N ltac:(lia) Hb) as He3.
    replace (e3 <=? 128 - 24) with true by (symmetry; apply Z.leb_le; lia).
    exact Hb.
  - lia.
Qed.

Lemma shl_align_value mx ex e' :
  e' <= ex -> (F2Q (Z.pos (fst (shl_align mx ex e'))) e' == F2Q (Z.pos mx) ex)%Q.
Proof.
  intros He. unfold shl_align. destruct (e' - ex) as [|p|p] eqn:E; cbn [fst]; try lia.
  - replace e' with ex by lia. reflexivity.
  - change (Pos.iter xO mx p) with (shift_pos p mx).
    rewrite shift_pos_correct, Z.pow_pos_fold.
    rewrite Z.mul_comm, F2Q_shift by lia. replace (e' + Z.pos p) with ex by lia. reflexivity.
Qed.

Lemma round_bounded (m : positive) e N :
  0 <= N < 2 ^ 24 -> (F2Q (Z.pos m) e <= inject_Z N)%Q ->
  bounded_by N (binary_round 24 128 false m e).
Proof.
  intros HN Hm. unfold binary_round.
  set (e' := fexp 24 128 (Z.pos (digits2_pos m) + e)).
  unfold shl_align. destruct (e' - e) as [|p|p] eqn:E.
  - apply round_aux_bounded; assumption.
  - apply round_aux_bounded; assumption.
  - apply round_aux_bounded; [assumption|].
    pose proof (shl_align_value m e e' ltac:(lia)) as Hv.
    unfold shl_align in Hv. rewrite E in Hv. cbn [fst] in Hv. rewrite Hv. exact Hm.
Qed.

Lemma bounded_by_mono N N' f : N <= N' -> bounded_by N f -> bounded_by N' f.
Proof.
  intros H. destruct f as [s| | |[|] mm e]; simpl; auto.
  intros Hb. apply Qle_trans with (inject_Z N); [exact Hb|]. rewrite <- Zle_Qle. exact H.
Qed.

Lemma add_bounded N x y :
  0 <= N -> N + 1 < 2 ^ 24 -> bounded_by N x -> bounded_by 1 y ->
  bounded_by (N + 1) (SFadd 24 128 x y).
Proof.
  intros HN HN1 Hx Hy.
  destruct x as [sx| | |[|] mx ex]; try contradiction;
  destruct y as [sy| | |[|] my ey]; try contradiction.
  - cbn [SFadd]. destruct sx, sy; exact I.
  - cbn [SFadd]. apply (bounded_by_mono 1); [lia|exact Hy].
  - cbn [SFadd]. apply (bounded_by_mono N); [lia|exact Hx].
  - cbn [SFadd cond_Zopp]. cbv zeta.
    set (ez := Z.min ex ey).
    pose proof (shl_align_value mx ex ez ltac:(lia)) as Vx.
    pose proof (shl_align_value my ey ez ltac:(lia)) as Vy.
    destruct (shl_align mx ex ez) as [ax ?]. destruct (shl_align my ey ez) as [ay ?].
    cbn [fst] in *. change (Z.pos ax + Z.pos ay) with (Z.pos (ax + ay)).
    cbn [binary_normalize]. apply round_bounded; [lia|].
    cbn [bounded_by] in Hx, Hy. rewrite Pos2Z.inj_add. unfold F2Q in *.
    rewrite inject_Z_plus. rewrite inject_Z_plus. change (inject_Z 1) with 1%Q. 
    rewrite Qmult_plus_distr_l, Vx, Vy. apply Qplus_le_compat; assumption.
Qed.


(** ** Finiteness of a quotient

    A quotient by [sigma_t = 3] of a finite float is finite: the mantissa of
    the quotient is short enough for the exponent to stay below the largest
    one. *)

Lemma digits2_pos_gt p : Z.pos p < 2 ^ Z.pos (digits2_pos p).
Proof.
  induction p as [p IH|p IH|]; cbn [digits2_pos]; try (simpl; lia);
  rewrite Pos2Z.inj_succ, Z.pow_succ_r by lia; lia.
Qed.

Lemma Zdigits2_le v k : 0 <= k -> 0 <= v < 2 ^ k -> Zdigits2 v <= k.
Proof.
  intros Hk [H0 Hv]. destruct v as [|p|p]; cbn [Zdigits2]; try lia.
  pose proof (digits2_pos_le p) as Hd.
  assert (H : 2 ^ Z.pos (digits2_pos p) < 2 ^ (k + 1)).
  { rewrite Z.pow_add_r, Z.pow_1_r by lia. lia. }
  apply Z.pow_lt_mono_r_iff in H; lia.
Qed.

Lemma shr_1_m mrs : 0 <= shr_m mrs -> shr_m (shr_1 mrs) = shr_m mrs / 2.
Proof.
  destruct mrs as [mm r s]. cbn [shr_m]. intros H.
  destruct mm as [|[p|p|]|p]; cbn [shr_1 shr_m]; try lia.
  - reflexivity.
  - rewrite Pos2Z.inj_xI. apply Z.div_unique with 1; lia.
  - rewrite Pos2Z.inj_xO. apply Z.div_unique with 0; lia.
  - reflexivity.
Qed.

Lemma shr_iter_m mrs n :
  0 <= shr_m mrs -> shr_m (Nat.iter n shr_1 mrs) = shr_m mrs / 2 ^ Z.of_nat n.
Proof.
  intros H. induction n as [|n IH].
  - simpl. rewrite Z.div_1_r. reflexivity.
  - cbn [Nat.iter nat_rect]. rewrite shr_1_m.
    + change (nat_rect _ _ _ n) with (Nat.iter n shr_1 mrs).
      rewrite IH, Nat2Z.inj_succ, Z.pow_succ_r by lia.
      rewrite Z.div_div by (try apply Z.pow_pos_nonneg; lia).
      f_equal. lia.
    + change (nat_rect _ _ _ n) with (Nat.iter n shr_1 mrs).
      rewrite IH. apply Z.div_pos; [exact H | apply Z.pow_pos_nonneg; lia].
Qed.

Lemma shr_m_of_loc m l : shr_m (shr_record_of_loc m l) = m.
Proof. destruct l as [|[| |]]; reflexivity. Qed.

Lemma rne_range m l : m <= round_nearest_even m l <= m + 1.
Proof. destruct l as [|[| |]]; cbn [round_nearest_even]; try destruct (Z.even m); lia. Qed.

(** one pass of [shr_fexp]: the mantissa is non negative and short, the
    exponent is known *)
Lemma shr_fexp_digits m e l :
  0 <= m ->
  let '(mrs, e') := shr_fexp 24 128 m e l in
  0 <= shr_m mrs /\ shr_m mrs <= m /\
  ((e' = e /\ shr_m mrs = m /\ mrs = shr_record_of_loc m l /\ fexp 24 128 (Zdigits2 m + e) <= e) \/
   (e' = fexp 24 128 (Zdigits2 m + e) /\ e < e' /\ shr_m mrs < 2 ^ 24)).
Proof.
  intros H0. unfold shr_fexp, shr.
  destruct (fexp 24 128 (Zdigits2 m + e) - e) as [|n|n] eqn:En.
  - rewrite shr_m_of_loc. repeat split; try lia. left. repeat split; lia.
  - rewrite iter_pos_nat, shr_iter_m, shr_m_of_loc, positive_nat_Z
      by (rewrite shr_m_of_loc; exact H0).
    assert (Hp : 0 < 2 ^ Z.pos n) by (apply Z.pow_pos_nonneg; lia).
    split; [apply Z.div_pos; lia|].
    split; [apply Z.div_le_upper_bound; nia|].
    right. split; [lia|]. split; [lia|].
    apply Z.div_lt_upper_bound; [lia|].
    destruct m as [|q|q]; [lia| |lia]. cbn [Zdigits2] in En.
    pose proof (digits2_pos_gt q) as Hd.
    unfold fexp, emin in En.
    assert (Hle : Z.pos (digits2_pos q) <= Z.pos n + 24) by lia.
    apply Z.lt_le_trans with (2 ^ Z.pos (digits2_pos q)); [exact Hd|].
    rewrite <- Z.pow_add_r by lia. apply Z.pow_le_mono_r; lia.
  - rewrite shr_m_of_loc. repeat split; try lia. left. repeat split; lia.
Qed.

Lemma round_aux_finite sx mz ez lz :
  0 <= mz -> Zdigits2 mz + ez <= 127 -> ez <= 103 ->
  is_finite (binary_round_aux 24 128 sx mz ez lz) = true.
Proof.
  intros H0 Hd He. unfold binary_round_aux.
  pose proof (shr_fexp_digits mz ez lz H0) as H1.
  destruct (shr_fexp 24 128 mz ez lz) as [mrs1 e1].
  destruct H1 as (Hp1 & Hle1 & H1).
  pose proof (rne_range (shr_m mrs1) (loc_of_shr_record mrs1)) as Hr.
  set (m2 := round_nearest_even (shr_m mrs1) (loc_of_shr_record mrs1)) in *.
  assert (H2 : 0 <= m2 <= 2 ^ 24 /\ e1 <= 103).
  { destruct H1 as [(-> & Hm & _ & Hf)|(-> & Hlt & Hm)].
    - split; [|exact He]. split; [lia|].
      unfold fexp, emin in Hf.
      assert (Hdg : Zdigits2 mz <= 24) by lia.
      destruct mz as [|q|q]; [lia| |lia]. cbn [Zdigits2] in Hdg.
      pose proof (digits2_pos_gt q) as Hq.
      assert (2 ^ Z.pos (digits2_pos q) <= 2 ^ 24) by (apply Z.pow_le_mono_r; lia).
      lia.
    - split; [lia|]. unfold fexp, emin. lia. }
  destruct H2 as [Hm2 He1].
  pose proof (shr_fexp_digits m2 e1 loc_Exact ltac:(lia)) as H3.
  destruct (shr_fexp 24 128 m2 e1 loc_Exact) as [mrs3 e3].
  destruct H3 as (Hp3 & _ & H3).
  assert (He3 : e3 <= 104).
  { destruct H3 as [(-> & _)|(-> & _ & _)]; [lia|].
    assert (Zdigits2 m2 <= 25) by (apply Zdigits2_le; lia).
    unfold fexp, emin. lia. }
  destruct (shr_m mrs3) as [|q|q]; [reflexivity| |lia].
  replace (e3 <=? 128 - 24) with true by (symmetry; apply Z.leb_le; lia).
  reflexivity.
Qed.

Lemma div_core_bounds m e :
  Z.pos (digits2_pos m) <= 24 -> e <= 104 ->
  let '(q, e', l) := SFdiv_core_binary 24 128 (Z.pos m) e (Z.pos 12582912) (-22) in
  0 <= q /\ Zdigits2 q + e' <= 127 /\ e' <= 103.
Proof.
  intros Hd He. unfold SFdiv_core_binary.
  change (Zdigits2 (Z.pos 12582912)) with 24. cbn [Zdigits2].
  set (d1 := Z.pos (digits2_pos m)) in *.
  set (e' := Z.min (fexp 24 128 (d1 + e - (24 + -22))) (e - -22)).
  set (s := e - -22 - e').
  assert (He' : e' <= 102 /\ 0 <= s) by (unfold s, e', fexp, emin; lia).
  set (m' := match s with Z.pos _ => Z.shiftl (Z.pos m) s | 0 => Z.pos m | Z.neg _ => 0 end).
  assert (Hm' : 0 <= m' < 2 ^ (d1 + s)).
  { pose proof (digits2_pos_gt m) as Hg. fold d1 in Hg.
    unfold m'. destruct s as [|sp|sp] eqn:Es; [rewrite Z.add_0_r; lia| |lia].
    rewrite Z.shiftl_mul_pow2 by lia. rewrite Z.pow_add_r by lia.
    assert (0 < 2 ^ Z.pos sp) by (apply Z.pow_pos_nonneg; lia). nia. }
  pose proof (Z_div_mod m' 12582912 ltac:(lia)) as Hdiv.
  destruct (Z.div_eucl m' 12582912) as [q r]. destruct Hdiv as [Hq Hr].
  assert (Hq0 : 0 <= q) by nia.
  split; [exact Hq0|]. split; [|lia].
  destruct (Z_le_gt_dec 23 (d1 + s)) as [Hbig|Hsmall].
  - assert (Hlt : q < 2 ^ (d1 + s - 23)).
    { assert (E : 2 ^ (d1 + s) = 2 ^ (d1 + s - 23) * 2 ^ 23).
      { rewrite <- Z.pow_add_r by lia. f_equal. lia. }
      change (2 ^ 23) with 8388608 in E. nia. }
    assert (Zdigits2 q <= d1 + s - 23) by (apply Zdigits2_le; lia).
    unfold s in *. lia.
  - assert (Hp : 2 ^ (d1 + s) <= 2 ^ 22) by (apply Z.pow_le_mono_r; lia).
    change (2 ^ 22) with 4194304 in Hp.
    assert (q = 0) by nia. subst q. cbn [Zdigits2]. lia.
Qed.

Lemma div_sigma_t_finite l :
  valid32 l = true -> is_finite l = true -> is_finite (l / sigma_t)%f32 = true.
Proof.
  change sigma_t with (S754_finite false 12582912 (-22)).
  unfold valid32, F32.div, F32.prec, F32.emax.
  destruct l as [s| | |s mm e]; try discriminate.
  - intros _ _. reflexivity.
  - intros Hv _. cbn [valid_binary] in Hv. unfold bounded, canonical_mantissa in Hv.
    apply andb_true_iff in Hv. destruct Hv as [Hc Hb].
    apply Z.eqb_eq in Hc. apply Z.leb_le in Hb. unfold fexp, emin in Hc.
    cbn [SFdiv].
    pose proof (div_core_bounds mm e ltac:(lia) ltac:(lia)) as H.
    destruct (SFdiv_core_binary 24 128 (Z.pos mm) e (Z.pos 12582912) (-22)) as [[q e'] lz].
    destruct H as (H0 & Hd & He). apply round_aux_finite; assumption.
Qed.


Lemma opp_valid l : valid32 (- l)%f32 = valid32 l.
Proof. destruct l; reflexivity. Qed.

Lemma opp_finite l : is_finite (- l)%f32 = is_finite l.
Proof. destruct l; reflexivity. Qed.

Lemma ltb_leb a b : (a <? b)%f32 = true -> (a <=? b)%f32 = true.
Proof.
  unfold F32.ltb, F32.leb, SFltb, SFleb.
  destruct (SFcompare a b) as [[| |]|]; (reflexivity || discriminate).
Qed.

(** ** The weights of the program

    The absorption subtracts [1/3]; in single precision the weights are [1],
    [11184810 * 2^-24], [11184809 * 2^-25] and, from the third absorption on,
    [0]. *)

Lemma absorb_nonneg w : (F32.zero <=? absorb w)%f32 = true.
Proof.
  unfold absorb, std_max.
  destruct (F32.zero <? w - sigma_a / sigma_t)%f32 eqn:E.
  - apply ltb_leb. exact E.
  - reflexivity.
Qed.

Lemma weight_after_S k : weight_after (S k) = absorb (weight_after k).
Proof. reflexivity. Qed.

Lemma weight_after_3 k : (3 <= k)%nat -> weight_after k = F32.zero.
Proof.
  induction 1 as [|k _ IH].
  - evaluate.
  - rewrite weight_after_S, IH. evaluate.
Qed.

Lemma weight_after_cases k :
  weight_after k = F32.one \/ weight_after k = S754_finite false 11184810 (-24) \/
  weight_after k = S754_finite false 11184809 (-25) \/ weight_after k = F32.zero.
Proof.
  destruct k as [|[|[|k]]].
  - left. reflexivity.
  - right. left. evaluate.
  - right. right. left. evaluate.
  - right. right. right. apply weight_after_3. lia.
Qed.

(** A weight below the survival threshold is [0], and the boost leaves it
    there. *)
Lemma roulette_boost k :
  (weight_after k <? survival)%f32 = true ->
  (weight_after k * F32.of_Z m)%f32 = weight_after k.
Proof.
  destruct (weight_after_cases k) as [E|[E|[E|E]]]; rewrite E; evaluate.
Qed.

Lemma weight_after_range k :
  (F32.zero <=? weight_after k)%f32 = true /\ (weight_after k <=? F32.one)%f32 = true /\
  bounded_by 1 (weight_after k).
Proof.
  destruct (weight_after_cases k) as [E|[E|[E|E]]]; rewrite E;
    (split; [|split]); evaluate.
Qed.

Section Walk.

Variables (lm : Libm) (size : Z) (src : nat -> F32.t).

(** ** One turn of the loop *)

(** The ways through [body]: the exit branch, or a move followed by
    absorption, roulette and scattering. *)
Lemma body_spec p a i f p' a' j :
  body lm size p a src i = (f, p', a', j) ->
  let s := free_path lm (src i) in
  let w1 := absorb (weight p) in
  ((boundary_dist p <? s)%f32 = true /\ f = Break /\ p' = p /\
   a' = exit_photon size p a /\ j = S i) \/
  ((boundary_dist p <? s)%f32 = false /\ a' = a /\
   x p' = (x p + s * mu_x p)%f32 /\ y p' = (y p + s * mu_y p)%f32 /\
   z p' = (z p + s * mu_z p)%f32 /\
   (((w1 <? survival)%f32 = true /\
     ((f = Break /\ weight p' = w1) \/
      (f = Next /\ weight p' = (w1 * F32.of_Z m)%f32))) \/
    ((w1 <? survival)%f32 = false /\ f = Next /\ weight p' = w1))).
Proof.
  unfold body, bind, distr, ret. cbv beta iota zeta.
  destruct (boundary_dist p <? free_path lm (src i))%f32 eqn:Hexit.
  - intros H. injection H as <- <- <- <-. left. auto.
  - destruct (absorb (weight p) <? survival)%f32 eqn:Hlow.
    + destruct (F32.one / F32.of_Z m <? src (S i))%f32.
      * intros H. injection H as <- <- <- <-. right. cbn [x y z weight]. auto 10.
      * destruct (ScatterPhoton lm (mu_x p) (mu_y p) (mu_z p) g src (S (S i)))
          as [[[ux uy] uz] j'].
        intros H. injection H as <- <- <- <-. right. cbn [x y z weight]. auto 10.
    + destruct (ScatterPhoton lm (mu_x p) (mu_y p) (mu_z p) g src (S i))
        as [[[ux uy] uz] j'].
      intros H. injection H as <- <- <- <-. right. cbn [x y z weight]. auto 10.
Qed.

Lemma body_weight p a i f p' a' j k :
  weight p = weight_after k ->
  body lm size p a src i = (f, p', a', j) ->
  (f = Break /\ p' = p /\ a' = exit_photon size p a) \/
  (a' = a /\ weight p' = weight_after (S k)).
Proof.
  intros Hw Hb. apply body_spec in Hb. cbv zeta in Hb. rewrite Hw, <- weight_after_S in Hb.
  destruct Hb as [(_ & Hf & Hp & Ha & _)|(_ & Ha & _ & _ & _ & Hr)]; [left; auto|].
  right. split; [exact Ha|].
  destruct Hr as [(Hlow & [(_ & Hw')|(_ & Hw')])|(_ & _ & Hw')]; try exact Hw'.
  rewrite Hw'. apply roulette_boost. exact Hlow.
Qed.

Lemma visited_weight p :
  visited lm size src p -> exists k, weight p = weight_after k.
Proof.
  induction 1 as [|p a i f p' a' j _ [k IH] _ Hb].
  - exists 0%nat. reflexivity.
  - destruct (body_weight _ _ _ _ _ _ _ k IH Hb) as [(_ & -> & _)|(_ & Hw)].
    + exists k. exact IH.
    + exists (S k). exact Hw.
Qed.

(** ** The walk of one photon *)

(** A photon that has been absorbed [k] times needs fuel for [3 - k] more
    turns; its walk changes the sums through the exit branch or not at all. *)
Lemma walk_terminates fuel :
  forall k p a i, (3 <= fuel + k)%nat -> weight p = weight_after k ->
  exists p' a' j,
    while_loop lm size fuel p a src i = (Some (p', a'), j) /\
    (a' = a \/ exists q k', weight q = weight_after k' /\ a' = exit_photon size q a).
Proof.
  induction fuel as [|fuel IH]; intros k p a i Hk Hw.
  - exists p, a, i. cbn [while_loop]. rewrite Hw, weight_after_3 by lia.
    split; [reflexivity | left; reflexivity].
  - cbn [while_loop]. destruct (weight p == F32.zero)%f32.
    + exists p, a, i. split; [reflexivity | left; reflexivity].
    + unfold bind. destruct (body lm size p a src i) as [[[f p1] a1] j1] eqn:Hb.
      destruct (body_weight _ _ _ _ _ _ _ k Hw Hb) as [(-> & -> & ->)|(-> & Hw1)].
      * exists p, (exit_photon size p a), j1. split; [reflexivity|].
        right. exists p, k. auto.
      * destruct f.
        -- apply (IH (S k)); [lia | exact Hw1].
        -- exists p1, a, j1. split; [reflexivity | left; reflexivity].
Qed.

(** ** The two sums *)

Lemma bounded_by_value N f :
  0 <= N -> bounded_by N f ->
  is_finite f = true /\ (0 <= B2Q f)%Q /\ (B2Q f <= inject_Z N)%Q.
Proof.
  intros HN. destruct f as [s| | |[|] mm e]; cbn [bounded_by is_finite B2Q]; try contradiction.
  - intros _. split; [reflexivity|]. split; [apply Qle_refl|].
    change 0%Q with (inject_Z 0). rewrite <- Zle_Qle. exact HN.
  - intros H. split; [reflexivity|]. split; [|exact H].
    unfold F2Q. apply Qmult_le_0_compat; [|apply Qlt_le_weak, pow2_pos].
    change 0%Q with (inject_Z 0). rewrite <- Zle_Qle. lia.
Qed.

Lemma sums_within_mono k k' a : k <= k' -> sums_within k a -> sums_within k' a.
Proof.
  intros H (nR & nT & HR & HT & Hk & BR & BT).
  exists (nR + (k' - k)), nT. repeat split; try lia; try assumption.
  apply (bounded_by_mono nR); [lia | exact BR].
Qed.

Lemma exit_photon_sums p a k j :
  0 <= k -> k + 1 < 2 ^ 24 -> weight p = weight_after j ->
  sums_within k a -> sums_within (k + 1) (exit_photon size p a).
Proof.
  intros Hk Hk1 Hw (nR & nT & HR & HT & Hsum & BR & BT).
  destruct (weight_after_range j) as (_ & _ & Hb). rewrite <- Hw in Hb.
  unfold exit_photon. destruct (F32.zero <? mu_z p)%f32.
  - exists nR, (nT + 1).
    destruct (deposit_guard size p); cbn [Rd Tt];
      (repeat split; try lia; try assumption; apply add_bounded; (lia || assumption)).
  - exists (nR + 1), nT.
    destruct (deposit_guard size p); cbn [Rd Tt];
      (repeat split; try lia; try assumption; apply add_bounded; (lia || assumption)).
Qed.

Lemma photons_sums fuel a i0 :
  (3 <= fuel)%nat -> sums_within 0 a ->
  forall n : N, Z.of_N n < 2 ^ 24 ->
  exists a' j, photons lm size fuel n a src i0 = (Some a', j) /\
               sums_within (Z.of_N n) a'.
Proof.
  intros Hfuel H0 n. induction n as [|n IH] using N.peano_ind; intros Hn.
  - exists a, i0. split; [reflexivity | exact H0].
  - destruct IH as (a1 & j1 & Hrun & Hs); [lia|].
    unfold photons in *. rewrite N.iter_succ.
    unfold one_photon at 1. unfold bind at 1. rewrite Hrun. unfold bind.
    destruct (walk_terminates fuel 0 photon0 a1 j1 ltac:(lia) eq_refl)
      as (p' & a' & j' & Hw & Ha).
    rewrite Hw. exists a', j'. split; [reflexivity|].
    rewrite N2Z.inj_succ, <- Z.add_1_r.
    destruct Ha as [->|(q & k' & Hq & ->)].
    + apply (sums_within_mono (Z.of_N n)); [lia | exact Hs].
    + apply (exit_photon_sums _ _ _ k'); try assumption; lia.
Qed.

(** C7. Every photon met during a walk has a weight of at most [1]; and a
    pass, given fuel for three turns per photon, ends with two finite
    non-negative sums whose exact values add up to at most the number of
    photons, [1000000]. *)
Theorem energy_bound recs fuel i p :
  visited lm size src p -> (3 <= fuel)%nat ->
  (weight p <=? F32.one)%f32 = true /\
  exists a j,
    MCSimulation lm fuel recs size src i = (Some a, j) /\
    is_finite (Rd a) = true /\ is_finite (Tt a) = true /\
    (0 <= B2Q (Rd a))%Q /\ (0 <= B2Q (Tt a))%Q /\
    (B2Q (Rd a) + B2Q (Tt a) <= inject_Z (Z.of_N nrPhotons))%Q.
Proof.
  intros Hv Hfuel. split.
  - destruct (visited_weight _ Hv) as [k ->]. apply weight_after_range.
  - unfold MCSimulation.
    destruct (photons_sums fuel
                {| Rd := F32.zero; Tt := F32.zero; records := recs |} i Hfuel)
      with (n := nrPhotons) as (a & j & Hrun & nR & nT & HR & HT & Hsum & BR & BT).
    + exists 0, 0. cbn. repeat split; lia.
    + evaluate.
    + exists a, j. split; [exact Hrun|].
      destruct (bounded_by_value nR (Rd a) HR BR) as (FR & PR & LR).
      destruct (bounded_by_value nT (Tt a) HT BT) as (FT & PT & LT).
      repeat split; try assumption.
      rewrite <- Hsum, inject_Z_plus. lra.
Qed.

(** ** The weight of a photon *)

(** C9. The weight of every photon met during a walk is at least [0]; and
    the absorption step leaves a weight of at least [0] whatever the weight
    before it was. *)
Theorem weight_never_negative p w :
  visited lm size src p ->
  (F32.zero <=? weight p)%f32 = true /\ (F32.zero <=? absorb w)%f32 = true.
Proof.
  intros Hv. split; [|apply absorb_nonneg].
  destruct (visited_weight _ Hv) as [k ->]. apply weight_after_range.
Qed.

(** C10. When the absorption step of a turn clamps the weight to [0], the
    walk ends with that turn, for any fuel: the photon stays where the move of
    that turn put it, its weight is [0], and the sums and the buffer are what
    they were before the turn. *)
Theorem zero_weight_ends_walk fuel p a i :
  (weight p == F32.zero)%f32 = false ->
  (boundary_dist p <? free_path lm (src i))%f32 = false ->
  absorb (weight p) = F32.zero ->
  exists p' j,
    while_loop lm size (S fuel) p a src i = (Some (p', a), j) /\
    weight p' = F32.zero /\
    x p' = (x p + free_path lm (src i) * mu_x p)%f32 /\
    y p' = (y p + free_path lm (src i) * mu_y p)%f32 /\
    z p' = (z p + free_path lm (src i) * mu_z p)%f32.
Proof.
  intros Halive Hin Hzero. cbn [while_loop]. rewrite Halive. unfold bind.
  destruct (body lm size p a src i) as [[[f p1] a1] j1] eqn:Hb.
  apply body_spec in Hb. cbv zeta in Hb. rewrite Hzero in Hb.
  destruct Hb as [(Hout & _)|(_ & -> & Hx & Hy & Hz & Hr)]; [congruence|].
  assert (Hw : weight p1 = F32.zero /\ (f = Break \/ f = Next)).
  { destruct Hr as [(_ & [(-> & Hw)|(-> & Hw)])|(Hhigh & _)]; auto.
    vm_compute in Hhigh. discriminate. }
  destruct Hw as [Hw Hf]. exists p1.
  destruct Hf as [-> | ->].
  - exists j1. auto.
  - exists j1. split; [|auto].
    destruct fuel; cbn [while_loop]; rewrite Hw; reflexivity.
Qed.

(** ** The free path *)

(** C8 (as amended). Whatever the deviate is, provided the library returns
    a well-formed float for its logarithm, the sampled free path is finite
    exactly when that logarithm is finite.  Where the logarithm is minus
    infinity, as it is at the deviate [0], the free path is plus infinity, and
    a photon whose boundary distance is finite leaves the loop through the
    exit branch on that turn. *)
Theorem free_path_finiteness p a i :
  valid32 (logf lm (src i)) = true ->
  is_finite (free_path lm (src i)) = is_finite (logf lm (src i)) /\
  (logf lm (src i) = S754_infinity true ->
   free_path lm (src i) = F32.inf /\
   (is_finite (boundary_dist p) = true ->
    body lm size p a src i = (Break, p, exit_photon size p a, S i))).
Proof.
  intros Hv. split.
  - unfold free_path. destruct (is_finite (logf lm (src i))) eqn:Hf.
    + apply div_sigma_t_finite; [rewrite opp_valid | rewrite opp_finite]; assumption.
    + destruct (logf lm (src i)) as [s|s| |s mm e]; try discriminate; reflexivity.
  - intros Hl. assert (Hs : free_path lm (src i) = F32.inf).
    { unfold free_path. rewrite Hl. reflexivity. }
    split; [exact Hs|]. intros Hd.
    unfold body, bind, distr, ret. cbv beta iota zeta. rewrite Hs.
    destruct (boundary_dist p) as [s|s| |s mm e]; try discriminate; reflexivity.
Qed.

End Walk.

(** C8, the claim as it stands: [0] is a deviate of [[0, 1)], and its free
    path is not finite. *)
Lemma free_path_infinite_at_zero :
  unit_deviate F32.zero = true /\
  free_path libm_tab F32.zero = F32.inf /\
  is_finite (free_path libm_tab F32.zero) = false.
Proof. repeat split; evaluate. Qed.

(** ** The statements at sample data *)

Lemma level_photon_visited : visited libm_tab 512 run1 level_photon.
Proof.
  apply (visited_step libm_tab 512 run1 photon0 acc0 0%nat Next level_photon acc0 3%nat).
  - apply visited_init.
  - vm_compute. reflexivity.
  - vm_compute. reflexivity.
Defined.

Lemma energy_bound_witness :
  (weight level_photon <=? F32.one)%f32 = true /\
  exists a j,
    MCSimulation libm_tab 3 (fun _ => F32.zero) 512 run1 0%nat = (Some a, j) /\
    is_finite (Rd a) = true /\ is_finite (Tt a) = true /\
    (0 <= B2Q (Rd a))%Q /\ (0 <= B2Q (Tt a))%Q /\
    (B2Q (Rd a) + B2Q (Tt a) <= inject_Z (Z.of_N nrPhotons))%Q.
Proof.
  apply (energy_bound libm_tab 512 run1 (fun _ => F32.zero) 3 0 level_photon).
  - exact level_photon_visited.
  - apply le_n.
Defined.

Lemma weight_never_negative_witness :
  (F32.zero <=? weight level_photon)%f32 = true /\
  (F32.zero <=? absorb (weight_after 2))%f32 = true.
Proof.
  apply (weight_never_negative libm_tab 512 run1 level_photon (weight_after 2)).
  exact level_photon_visited.
Defined.

Lemma zero_weight_ends_walk_witness :
  exists p' j,
    while_loop libm_tab 512 1 late_photon acc0 (seq_of [half; half]) 0%nat
      = (Some (p', acc0), j) /\
    weight p' = F32.zero /\
    x p' = (x late_photon + free_path libm_tab half * mu_x late_photon)%f32 /\
    y p' = (y late_photon + free_path libm_tab half * mu_y late_photon)%f32 /\
    z p' = (z late_photon + free_path libm_tab half * mu_z late_photon)%f32.
Proof.
  apply (zero_weight_ends_walk libm_tab 512 (seq_of [half; half]) 0 late_photon acc0 0%nat);
    vm_compute; reflexivity.
Defined.

Lemma free_path_finiteness_witness :
  is_finite (free_path libm_tab F32.zero) = is_finite (logf libm_tab F32.zero) /\
  (logf libm_tab F32.zero = S754_infinity true ->
   free_path libm_tab F32.zero = F32.inf /\
   (is_finite (boundary_dist photon0) = true ->
    body libm_tab 512 photon0 acc0 (seq_of [F32.zero]) 0%nat
      = (Break, photon0, exit_photon 512 photon0 acc0, 1%nat))).
Proof.
  apply (free_path_finiteness libm_tab 512 (seq_of [F32.zero]) photon0 acc0 0%nat).
  reflexivity.
Defined.

(** * Further properties of the walk *)

Section WalkMore.

Variables (lm : Libm) (size : Z) (src : nat -> F32.t).

Lemma GetCosTheta_draws g0 i : snd (GetCosTheta g0 src i) = S i.
Proof. unfold GetCosTheta. destruct (g0 == F32.zero)%f32; reflexivity. Qed.

Lemma ScatterPhoton_draws ux uy uz g0 i :
  snd (ScatterPhoton lm ux uy uz g0 src i) = S (S i).
Proof.
  unfold ScatterPhoton, bind.
  pose proof (GetCosTheta_draws g0 i) as Hc.
  destruct (GetCosTheta g0 src i) as [c j]. cbn [snd] in Hc. subst j.
  unfold distr, ret. cbv beta iota zeta.
  destruct (F64.eqb (F64.of_f32 uz) F64.one); [reflexivity|].
  destruct (F64.eqb (F64.of_f32 uz) (SFopp F64.one)); reflexivity.
Qed.

(** The deviates a turn consumes: one when the photon leaves, two when the
    roulette ends the walk, three for a move with scattering, four when the
    roulette is survived. *)
Lemma body_draws p a i f p' a' j :
  body lm size p a src i = (f, p', a', j) ->
  ((boundary_dist p <? free_path lm (src i))%f32 = true /\ j = S i) \/
  ((boundary_dist p <? free_path lm (src i))%f32 = false /\
   (((absorb (weight p) <? survival)%f32 = false /\ j = (i + 3)%nat) \/
    ((absorb (weight p) <? survival)%f32 = true /\
     ((f = Break /\ j = (i + 2)%nat) \/ (f = Next /\ j = (i + 4)%nat))))).
Proof.
  unfold body, bind, distr, ret. cbv beta iota zeta.
  destruct (boundary_dist p <? free_path lm (src i))%f32.
  - intros H. injection H as <- <- <- <-. left. auto.
  - destruct (absorb (weight p) <? survival)%f32.
    + destruct (F32.one / F32.of_Z m <? src (S i))%f32.
      * intros H. injection H as <- <- <- <-.
        right. split; [reflexivity|]. right. split; [reflexivity|].
        left. split; [reflexivity | lia].
      * pose proof (ScatterPhoton_draws (mu_x p) (mu_y p) (mu_z p) g (S (S i))) as Hd.
        destruct (ScatterPhoton lm (mu_x p) (mu_y p) (mu_z p) g src (S (S i)))
          as [[[ux uy] uz] j'].
        cbn [snd] in Hd. intros H. injection H as <- <- <- <-.
        right. split; [reflexivity|]. right. split; [reflexivity|].
        right. split; [reflexivity | lia].
    + pose proof (ScatterPhoton_draws (mu_x p) (mu_y p) (mu_z p) g (S i)) as Hd.
      destruct (ScatterPhoton lm (mu_x p) (mu_y p) (mu_z p) g src (S i))
        as [[[ux uy] uz] j'].
      cbn [snd] in Hd. intros H. injection H as <- <- <- <-.
      right. split; [reflexivity|]. left. split; [reflexivity | lia].
Qed.

(** More fuel does not change a walk that has ended. *)
Lemma while_loop_fuel fuel :
  forall fuel' p a i r j, (fuel <= fuel')%nat ->
  while_loop lm size fuel p a src i = (Some r, j) ->
  while_loop lm size fuel' p a src i = (Some r, j).
Proof.
  induction fuel as [|fuel IH]; intros fuel' p a i r j Hle.
  - cbn [while_loop]. destruct fuel'; cbn [while_loop];
      destruct (weight p == F32.zero)%f32; unfold ret; congruence.
  - destruct fuel' as [|fuel']; [lia|]. cbn [while_loop].
    destruct (weight p == F32.zero)%f32; [auto|].
    unfold bind. destruct (body lm size p a src i) as [[[f p1] a1] j1].
    destruct f; [|auto]. apply IH. lia.
Qed.

(** Below the survival threshold only after the third absorption. *)
Lemma early_weight_high k :
  (k < 2)%nat -> (weight_after (S k) <? survival)%f32 = false.
Proof. destruct k as [|[|k]]; [evaluate | evaluate | lia]. Qed.

Lemma walk_draws fuel :
  forall k p a i, (3 <= fuel + k)%nat -> weight p = weight_after k ->
  exists r j, while_loop lm size fuel p a src i = (Some r, j) /\
              (i <= j <= i + budget k)%nat /\
              ((weight p == F32.zero)%f32 = false -> (i < j)%nat).
Proof.
  induction fuel as [|fuel IH]; intros k p a i Hk Hw.
  - exists (p, a), i. cbn [while_loop]. rewrite Hw, weight_after_3 by lia.
    split; [reflexivity|]. split; [lia|]. intros H. vm_compute in H. discriminate.
  - cbn [while_loop]. destruct (weight p == F32.zero)%f32 eqn:Hz.
    + exists (p, a), i. split; [reflexivity|]. split; [lia | discriminate].
    + assert (Hk3 : (k < 3)%nat).
      { destruct (Nat.lt_ge_cases k 3) as [H|H]; [exact H|].
        rewrite Hw, weight_after_3 in Hz by exact H. vm_compute in Hz. discriminate. }
      unfold bind. destruct (body lm size p a src i) as [[[f p1] a1] j1] eqn:Hb.
      pose proof (body_draws _ _ _ _ _ _ _ Hb) as Hd.
      rewrite Hw, <- weight_after_S in Hd.
      assert (Hj : (i < j1 <= i + 4)%nat /\ ((k < 2)%nat -> (j1 <= i + 3)%nat)).
      { destruct Hd as [(_ & ->)|(_ & [(_ & ->)|(Hlow & Hd)])]; try (split; lia).
        split; [destruct Hd as [(_ & ->)|(_ & ->)]; lia|].
        intros Hk2. rewrite (early_weight_high k Hk2) in Hlow. discriminate. }
      destruct Hj as [Hj Hj'].
      destruct (body_weight lm size src _ _ _ _ _ _ _ k Hw Hb) as [(-> & -> & ->)|(-> & Hw1)].
      * exists (p, exit_photon size p a), j1. split; [reflexivity|].
        split; [|lia]. destruct k as [|[|[|k]]]; cbn [budget]; lia.
      * destruct f.
        -- destruct (IH (S k) p1 a j1 ltac:(lia) Hw1) as (r & j & Hr & Hrange & _).
           exists r, j. split; [exact Hr|]. split; [|lia].
           destruct k as [|[|[|k]]]; cbn [budget] in *; lia.
        -- exists (p1, a), j1. split; [reflexivity|].
           split; [|lia]. destruct k as [|[|[|k]]]; cbn [budget]; lia.
Qed.

(** X1. The walk of a photon ends within three turns whatever the deviates
    are, more fuel changes nothing, and it consumes at least one and at most
    ten deviates. *)
Theorem walk_length fuel a i :
  (3 <= fuel)%nat ->
  exists r j,
    while_loop lm size 3 photon0 a src i = (Some r, j) /\
    while_loop lm size fuel photon0 a src i = (Some r, j) /\
    (i + 1 <= j <= i + 10)%nat.
Proof.
  intros Hfuel.
  destruct (walk_draws 3 0 photon0 a i ltac:(lia) eq_refl) as (r & j & Hr & Hj & Hpos).
  exists r, j. split; [exact Hr|]. split.
  - apply (while_loop_fuel 3); assumption.
  - specialize (Hpos eq_refl). cbn [budget] in Hj. lia.
Qed.

Lemma photons_draws fuel a0 i :
  (3 <= fuel)%nat ->
  forall n : N, exists a j,
    photons lm size fuel n a0 src i = (Some a, j) /\
    Z.of_nat i + Z.of_N n <= Z.of_nat j <= Z.of_nat i + 10 * Z.of_N n.
Proof.
  intros Hfuel. induction n as [|n IH] using N.peano_ind.
  - exists a0, i. split; [reflexivity | lia].
  - destruct IH as (a1 & j1 & Hrun & Hj).
    unfold photons in *. rewrite N.iter_succ.
    unfold one_photon at 1. unfold bind at 1. rewrite Hrun. unfold bind.
    destruct (walk_draws fuel 0 photon0 a1 j1 ltac:(lia) eq_refl)
      as ([p' a'] & j' & Hw & Hr & Hpos).
    rewrite Hw. exists a', j'. split; [reflexivity|].
    specialize (Hpos eq_refl). cbn [budget] in Hr. lia.
Qed.

(** X2. A pass ends, given fuel for three turns per photon, and consumes at
    least one deviate per photon and at most ten. *)
Theorem pass_draws fuel recs i :
  (3 <= fuel)%nat ->
  exists a j,
    MCSimulation lm fuel recs size src i = (Some a, j) /\
    Z.of_nat i + 1000000 <= Z.of_nat j <= Z.of_nat i + 10000000.
Proof.
  intros Hfuel. unfold MCSimulation.
  destruct (photons_draws fuel {| Rd := F32.zero; Tt := F32.zero; records := recs |}
              i Hfuel nrPhotons) as (a & j & Hrun & Hj).
  exists a, j. split; [exact Hrun|]. change (Z.of_N nrPhotons) with 1000000 in Hj. lia.
Qed.

(** X3. The roulette is reached only with a weight of [0]: a weight below
    the survival threshold is [0] already, and the boost of a survivor leaves
    it at [0]. *)
Theorem roulette_inert p :
  visited lm size src p ->
  (absorb (weight p) <? survival)%f32 = true ->
  absorb (weight p) = F32.zero /\
  (absorb (weight p) * F32.of_Z m)%f32 = F32.zero.
Proof.
  intros Hv Hlow. destruct (visited_weight lm size src p Hv) as [k Hk].
  rewrite Hk, <- weight_after_S in *.
  destruct (weight_after_cases (S k)) as [E|[E|[E|E]]]; rewrite E in *;
    try (vm_compute in Hlow; discriminate).
  split; reflexivity.
Qed.

(** A walk changes the sums and the buffer through one exit of a photon that
    is alive, or not at all. *)
Lemma walk_account fuel :
  forall k p a i, (3 <= fuel + k)%nat -> weight p = weight_after k ->
  exists p' a' j,
    while_loop lm size fuel p a src i = (Some (p', a'), j) /\
    (a' = a \/
     exists q, (weight q == F32.zero)%f32 = false /\
               (exists k', weight q = weight_after k') /\
               a' = exit_photon size q a).
Proof.
  induction fuel as [|fuel IH]; intros k p a i Hk Hw.
  - exists p, a, i. cbn [while_loop]. rewrite Hw, weight_after_3 by lia.
    split; [reflexivity | left; reflexivity].
  - cbn [while_loop]. destruct (weight p == F32.zero)%f32 eqn:Hz.
    + exists p, a, i. split; [reflexivity | left; reflexivity].
    + unfold bind. destruct (body lm size p a src i) as [[[f p1] a1] j1] eqn:Hb.
      destruct (body_weight lm size src _ _ _ _ _ _ _ k Hw Hb) as [(-> & -> & ->)|(-> & Hw1)].
      * exists p, (exit_photon size p a), j1. split; [reflexivity|].
        right. exists p. split; [exact Hz|]. split; [exists k; exact Hw | reflexivity].
      * destruct f.
        -- apply (IH (S k)); [lia | exact Hw1].
        -- exists p1, a, j1. split; [reflexivity | left; reflexivity].
Qed.

Lemma exit_photon_shape q a :
  (Rd (exit_photon size q a) = (Rd a + weight q)%f32 /\
   Tt (exit_photon size q a) = Tt a /\
   records (exit_photon size q a) = records a) \/
  (Rd (exit_photon size q a) = Rd a /\
   Tt (exit_photon size q a) = (Tt a + weight q)%f32 /\
   (records (exit_photon size q a) = records a \/
    records (exit_photon size q a)
      = store (records a) (deposit_index size q)
          (records a (deposit_index size q) + weight q)%f32)).
Proof.
  unfold exit_photon, deposit_guard.
  destruct (F32.zero <? mu_z q)%f32.
  - right. destruct (_ && _); cbn [Rd Tt records]; auto.
  - left. cbn [andb Rd Tt records]. auto.
Qed.

(** X4. One photon adds one weight to one of the two sums, or nothing: the
    weight is [1], [11184810 * 2^-24] or [11184809 * 2^-25]; the buffer changes
    in at most one cell, by the same weight, and only together with [Tt]. *)
Theorem photon_account fuel a i :
  (3 <= fuel)%nat ->
  exists p' a' j,
    while_loop lm size fuel photon0 a src i = (Some (p', a'), j) /\
    (a' = a \/
     exists w,
       In w [F32.one; S754_finite false 11184810 (-24); S754_finite false 11184809 (-25)] /\
       ((Rd a' = (Rd a + w)%f32 /\ Tt a' = Tt a /\ records a' = records a) \/
        (Rd a' = Rd a /\ Tt a' = (Tt a + w)%f32 /\
         (records a' = records a \/
          exists k, records a' = store (records a) k (records a k + w)%f32)))).
Proof.
  intros Hfuel.
  destruct (walk_account fuel 0 photon0 a i ltac:(lia) eq_refl)
    as (p' & a' & j & Hrun & Ha).
  exists p', a', j. split; [exact Hrun|].
  destruct Ha as [->|(q & Hz & [k' Hq] & ->)]; [left; reflexivity|].
  right. exists (weight q). split.
  - destruct (weight_after_cases k') as [E|[E|[E|E]]]; rewrite <- Hq in E; rewrite E.
    + left. reflexivity.
    + right. left. reflexivity.
    + right. right. left. reflexivity.
    + rewrite E in Hz. vm_compute in Hz. discriminate.
  - destruct (exit_photon_shape q a) as [H|(H1 & H2 & [H3|H3])]; [left; exact H| |].
    + right. auto.
    + right. split; [exact H1|]. split; [exact H2|]. right.
      exists (deposit_index size q). exact H3.
Qed.

(** X5. A photon whose [mu_z] is not a number gets the boundary distance [0]:
    any positive free path takes it through the exit branch, its weight is
    added to [Rd] and the buffer is left as it is. *)
Theorem nan_direction_exits p a i :
  mu_z p = S754_nan ->
  (F32.zero <? free_path lm (src i))%f32 = true ->
  boundary_dist p = F32.zero /\
  body lm size p a src i = (Break, p, exit_photon size p a, S i) /\
  exit_photon size p a
    = {| Rd := (Rd a + weight p)%f32; Tt := Tt a; records := records a |}.
Proof.
  intros Hz Hs.
  assert (Hd : boundary_dist p = F32.zero).
  { unfold boundary_dist. rewrite Hz. reflexivity. }
  split; [exact Hd|]. split.
  - unfold body, bind, distr, ret. cbv beta iota zeta. rewrite Hd, Hs. reflexivity.
  - unfold exit_photon, deposit_guard. rewrite Hz. reflexivity.
Qed.

End WalkMore.

(** X6. A photon whose first free path exceeds the thickness leaves the slab
    unscattered: its weight [1] is added to [Tt] and to the cell in the middle
    of a grid of [512 x 512], at offset [256 * 512 + 256]. *)
Theorem ballistic_photon lm fuel a src i :
  (d <? free_path lm (src i))%f32 = true ->
  while_loop lm 512 (S fuel) photon0 a src i
    = (Some (photon0,
             {| Rd := Rd a; Tt := (Tt a + F32.one)%f32;
                records := store (records a) (256 * 512 + 256)
                             (records a (256 * 512 + 256) + F32.one)%f32 |}),
       S i).
Proof.
  intros Hs. cbn [while_loop].
  change (weight photon0 == F32.zero)%f32 with false. cbv iota.
  unfold bind at 1. unfold body, bind, distr, ret. cbv beta iota zeta.
  change (boundary_dist photon0) with d. rewrite Hs.
  reflexivity.
Qed.

(** ** The sums and the buffer *)

Section Frame.

Variables (lm : Libm) (src : nat -> F32.t) (size size' : Z).

Lemma exit_photon_frame p a b :
  same_sums a b -> same_sums (exit_photon size p a) (exit_photon size' p b).
Proof.
  intros [HR HT]. unfold same_sums, exit_photon.
  destruct (F32.zero <? mu_z p)%f32;
    destruct (deposit_guard size p); destruct (deposit_guard size' p);
    cbn [Rd Tt]; rewrite ?HR, ?HT; split; reflexivity.
Qed.

Lemma body_frame p a b i :
  same_sums a b ->
  let '(f, p1, a1, j) := body lm size p a src i in
  exists b1, body lm size' p b src i = (f, p1, b1, j) /\ same_sums a1 b1.
Proof.
  intros Hab. unfold body, bind, distr, ret. cbv beta iota zeta.
  destruct (boundary_dist p <? free_path lm (src i))%f32.
  - eexists. split; [reflexivity|]. apply exit_photon_frame. exact Hab.
  - destruct (absorb (weight p) <? survival)%f32.
    + destruct (F32.one / F32.of_Z m <? src (S i))%f32.
      * eexists. split; [reflexivity | exact Hab].
      * destruct (ScatterPhoton lm (mu_x p) (mu_y p) (mu_z p) g src (S (S i)))
          as [[[ux uy] uz] j'].
        eexists. split; [reflexivity | exact Hab].
    + destruct (ScatterPhoton lm (mu_x p) (mu_y p) (mu_z p) g src (S i))
        as [[[ux uy] uz] j'].
      eexists. split; [reflexivity | exact Hab].
Qed.

Lemma while_loop_frame fuel :
  forall p a b i, same_sums a b ->
  match while_loop lm size fuel p a src i, while_loop lm size' fuel p b src i with
  | (Some (p1, a1), j1), (Some (p2, b1), j2) => p1 = p2 /\ j1 = j2 /\ same_sums a1 b1
  | (None, j1), (None, j2) => j1 = j2
  | _, _ => False
  end.
Proof.
  induction fuel as [|fuel IH]; intros p a b i Hab; cbn [while_loop].
  - destruct (weight p == F32.zero)%f32; unfold ret; auto.
  - destruct (weight p == F32.zero)%f32; [unfold ret; auto|].
    unfold bind. pose proof (body_frame p a b i Hab) as H.
    destruct (body lm size p a src i) as [[[f p1] a1] j].
    destruct H as (b1 & -> & Hab1).
    destruct f; [apply IH; exact Hab1 | unfold ret; auto].
Qed.

Lemma photons_frame fuel a b i (n : N) :
  same_sums a b ->
  agree (photons lm size fuel n a src i) (photons lm size' fuel n b src i).
Proof.
  intros Hab. induction n as [|n IH] using N.peano_ind.
  - split; [reflexivity | exact Hab].
  - unfold photons in *. rewrite !N.iter_succ.
    unfold one_photon at 1 3. unfold bind at 1 3.
    destruct (N.iter n (one_photon lm size fuel) (ret (Some a)) src i) as [o1 j1].
    destruct (N.iter n (one_photon lm size' fuel) (ret (Some b)) src i) as [o2 j2].
    destruct IH as [Hj Ho]. cbn [fst snd] in Hj, Ho. subst j2.
    destruct o1 as [a1|], o2 as [b1|]; try contradiction.
    + unfold bind. pose proof (while_loop_frame fuel photon0 a1 b1 j1 Ho) as H.
      destruct (while_loop lm size fuel photon0 a1 src j1) as [[[p1 a2]|] k1];
        destruct (while_loop lm size' fuel photon0 b1 src j1) as [[[p2 b2]|] k2];
        try contradiction.
      * destruct H as (_ & -> & H). split; [reflexivity | exact H].
      * subst k2. split; [reflexivity | exact I].
    + split; [reflexivity | exact I].
Qed.

(** X7. The two sums of a pass, and the deviates it consumes, depend neither
    on the size of the grid nor on what the buffer holds. *)
Theorem sums_ignore_grid fuel recs recs' i :
  agree (MCSimulation lm fuel recs size src i) (MCSimulation lm fuel recs' size' src i).
Proof.
  unfold MCSimulation. apply photons_frame. split; reflexivity.
Qed.

End Frame.

(** ** Rounding below a float *)

Lemma F2Q_le_iff a ea b eb :
  ea <= eb -> ((F2Q a ea <= F2Q b eb)%Q <-> a <= b * 2 ^ (eb - ea)).
Proof.
  intros He.
  assert (E : (F2Q b eb == F2Q (b * 2 ^ (eb - ea)) ea)%Q).
  { rewrite F2Q_shift by lia. replace (ea + (eb - ea)) with eb by lia. reflexivity. }
  rewrite E. split.
  - intros H. destruct (Z_le_gt_dec a (b * 2 ^ (eb - ea))) as [Hle|Hgt]; [exact Hle|].
    exfalso. assert (HH : (F2Q (b * 2 ^ (eb - ea)) ea < F2Q a ea)%Q).
    { unfold F2Q. apply Qmult_lt_compat_r; [apply pow2_pos|]. rewrite <- Zlt_Qlt. lia. }
    lra.
  - apply F2Q_le_mono.
Qed.

Lemma F2Q_lt_pow b eb : 0 <= b < 2 ^ 24 -> (F2Q b eb < (2 # 1) ^ (24 + eb))%Q.
Proof.
  intros Hb. rewrite Qpower_plus by apply two_ne0. unfold F2Q.
  apply Qmult_lt_compat_r; [apply pow2_pos|].
  rewrite <- (Zpower_Qpower 2 24) by lia. rewrite <- Zlt_Qlt. lia.
Qed.

Lemma F2Q_ge_digits (m : positive) e :
  ((2 # 1) ^ (Z.pos (digits2_pos m) - 1 + e) <= F2Q (Z.pos m) e)%Q.
Proof.
  pose proof (digits2_pos_le m) as Hd.
  set (dg := Z.pos (digits2_pos m)) in *.
  assert (Hdg : 0 < dg) by (unfold dg; lia).
  rewrite Qpower_plus by apply two_ne0. unfold F2Q.
  apply Qmult_le_compat_r; [|apply Qlt_le_weak, pow2_pos].
  rewrite <- (Zpower_Qpower 2 (dg - 1)) by lia. rewrite <- Zle_Qle.
  assert (2 ^ dg = 2 * 2 ^ (dg - 1)).
  { replace dg with (Z.succ (dg - 1)) at 1 by lia. apply Z.pow_succ_r. lia. }
  lia.
Qed.

Lemma pow2_lt_inv a b : ((2 # 1) ^ a < (2 # 1) ^ b)%Q -> a < b.
Proof. intros H. apply (Qpower_lt_compat_l_inv (2 # 1)); [exact H | reflexivity]. Qed.

(** Rounding to nearest does not step over a float: a positive number that
    a float bounds rounds to a float below the same bound. *)
Lemma round_aux_below sx (m : positive) e Mb eb :
  0 <= Mb < 2 ^ 24 -> -149 <= eb <= 104 -> e <= 104 ->
  (F2Q (Z.pos m) e <= F2Q Mb eb)%Q ->
  rounds_below sx (F2Q Mb eb) (binary_round_aux 24 128 sx (Z.pos m) e loc_Exact).
Proof.
  intros HMb Heb He Hm. unfold binary_round_aux.
  pose proof (shr_fexp_spec (Z.pos m) e ltac:(lia)) as H1.
  pose proof (shr_fexp_digits (Z.pos m) e loc_Exact ltac:(lia)) as D1.
  destruct (shr_fexp 24 128 (Z.pos m) e loc_Exact) as [mrs1 e1].
  pose proof (rne_cases mrs1) as Hr. cbv zeta in Hr.
  set (m2 := round_nearest_even (shr_m mrs1) (loc_of_shr_record mrs1)) in *.
  pose proof (F2Q_lt_pow Mb eb HMb) as HB.
  pose proof (F2Q_ge_digits m e) as Hdg.
  assert (H2 : 0 <= m2 /\ (F2Q m2 e1 <= F2Q Mb eb)%Q /\
               ((e1 = e /\ m2 = Z.pos m) \/ (m2 <= 2 ^ 24 /\ e1 <= eb))).
  { destruct H1 as [(-> & ->)|(Hlt & He1 & (Hp & Hle & Hex))].
    - simpl in Hr. destruct Hr as [->|(_ & [?|?])]; try discriminate.
      split; [lia|]. split; [exact Hm|]. left. split; reflexivity.
    - destruct D1 as (_ & _ & [(He1' & _)|(_ & _ & Hsmall)]); [lia|].
      assert (Hexp : e1 <= eb).
      { unfold fexp, emin in He1. cbn [Zdigits2] in He1.
        destruct (Z_le_gt_dec e1 eb) as [H|H]; [exact H|]. exfalso.
        assert (Hq : ((2 # 1) ^ (24 + eb) <= (2 # 1) ^ (Z.pos (digits2_pos m) - 1 + e))%Q).
        { apply Qpower_le_compat_l; [lia | discriminate]. }
        lra. }
      destruct Hr as [->|(-> & Hin)].
      + split; [exact Hp|]. split; [|right; split; [lia | exact Hexp]].
        apply Qle_trans with (F2Q (Z.pos m) e); [|exact Hm].
        replace e1 with (e + (e1 - e)) by lia.
        rewrite <- F2Q_shift by lia. apply F2Q_le_mono. exact Hle.
      + split; [lia|]. split; [|right; split; [lia | exact Hexp]].
        specialize (Hex Hin).
        apply F2Q_le_iff; [exact Hexp|].
        apply F2Q_le_iff in Hm; [|lia].
        replace (eb - e) with ((eb - e1) + (e1 - e)) in Hm by lia.
        rewrite Z.pow_add_r in Hm by lia.
        assert (0 < 2 ^ (e1 - e)) by (apply Z.pow_pos_nonneg; lia).
        nia. }
  destruct H2 as (Hm2 & Hb2 & Hshape).
  pose proof (shr_fexp_le m2 e1 Hm2) as H3.
  pose proof (shr_fexp_digits m2 e1 loc_Exact Hm2) as D3.
  destruct (shr_fexp 24 128 m2 e1 loc_Exact) as [mrs3 e3].
  destruct H3 as [Hp3 Hle3].
  destruct (shr_m mrs3) as [|q|q] eqn:E3; [reflexivity| |lia].
  assert (Hb : (F2Q (Z.pos q) e3 <= F2Q Mb eb)%Q) by lra.
  assert (He3 : e3 <= 104).
  { destruct D3 as (_ & _ & [(-> & _)|(He3 & Hlt3 & _)]).
    - destruct Hshape as [(-> & _)|(_ & ?)]; lia.
    - destruct Hshape as [(-> & ->)|(Hs & He1)].
      + (* the first pass did not shift: neither does the second *)
        destruct D1 as (_ & _ & [(_ & _ & _ & Hf)|(_ & Hlt' & _)]); lia.
      + assert (Zdigits2 m2 <= 25) by (apply Zdigits2_le; lia).
        unfold fexp, emin in He3.
        destruct (Z_le_gt_dec e3 eb) as [H'|H']; [lia|].
        destruct (Z.eq_dec m2 (2 ^ 24)) as [Hm24|Hm24].
        * (* a carry: the bound is strictly above *)
          exfalso. subst m2. rewrite Hm24 in Hb2.
          assert (Hq : ((2 # 1) ^ (24 + e1) <= F2Q (2 ^ 24) e1)%Q).
          { rewrite Qpower_plus by apply two_ne0. unfold F2Q.
            rewrite (Zpower_Qpower 2 24) by lia. apply Qle_refl. }
          assert (Hlt : ((2 # 1) ^ (24 + e1) < (2 # 1) ^ (24 + eb))%Q) by lra.
          apply pow2_lt_inv in Hlt. 
          assert (Zdigits2 (2 ^ 24) = 25) by reflexivity. rewrite Hm24 in *. lia.
        * assert (Zdigits2 m2 <= 24) by (apply Zdigits2_le; lia). lia. }
  replace (e3 <=? 128 - 24) with true by (symmetry; apply Z.leb_le; lia).
  split; [reflexivity|]. split; assumption.
Qed.

(** ** The image *)

Lemma valid_digits (mm : positive) e s :
  valid32 (S754_finite s mm e) = true ->
  Z.pos (digits2_pos mm) <= 24 /\ -149 <= e <= 104 /\
  (e = -149 \/ Z.pos (digits2_pos mm) = 24).
Proof.
  unfold valid32. cbn [valid_binary]. unfold bounded, canonical_mantissa, F32.prec, F32.emax.
  intros H. apply andb_true_iff in H. destruct H as [Hc Hb].
  apply Z.eqb_eq in Hc. apply Z.leb_le in Hb. unfold fexp, emin in Hc. lia.
Qed.

Lemma valid_lt_pow (mm : positive) e s :
  valid32 (S754_finite s mm e) = true -> Z.pos mm < 2 ^ 24.
Proof.
  intros H. destruct (valid_digits mm e s H) as (Hd & _).
  pose proof (digits2_pos_gt mm) as Hg.
  assert (2 ^ Z.pos (digits2_pos mm) <= 2 ^ 24) by (apply Z.pow_le_mono_r; lia). lia.
Qed.

(** Under validity the comparison of two positive floats is the comparison
    of their values. *)
Lemma ltb_value m1 e1 m2 e2 :
  valid32 (S754_finite false m1 e1) = true ->
  valid32 (S754_finite false m2 e2) = true ->
  (S754_finite false m1 e1 <? S754_finite false m2 e2)%f32 = true ->
  (F2Q (Z.pos m1) e1 < F2Q (Z.pos m2) e2)%Q.
Proof.
  intros V1 V2. unfold F32.ltb, SFltb. cbn [SFcompare].
  change (Pos.compare_cont Eq m1 m2) with (Pos.compare m1 m2).
  destruct (Z.compare_spec e1 e2) as [->|Hlt|Hgt]; try discriminate.
  - destruct (Pos.compare_spec m1 m2) as [?|Hm|?]; try discriminate. intros _.
    unfold F2Q. apply Qmult_lt_compat_r; [apply pow2_pos|]. rewrite <- Zlt_Qlt. lia.
  - intros _.
    destruct (valid_digits m2 e2 false V2) as (_ & He2 & [?|Hd2]); [|].
    { destruct (valid_digits m1 e1 false V1) as (_ & ? & _). lia. }
    pose proof (valid_lt_pow m1 e1 false V1) as H1.
    apply Qlt_le_trans with ((2 # 1) ^ (24 + e1))%Q; [apply F2Q_lt_pow; lia|].
    apply Qle_trans with ((2 # 1) ^ (Z.pos (digits2_pos m2) - 1 + e2))%Q;
      [|apply F2Q_ge_digits].
    apply Qpower_le_compat_l; [lia | discriminate].
Qed.

Lemma float_to_int_below (mm : positive) e N :
  (F2Q (Z.pos mm) e < inject_Z (N + 1))%Q -> N <= INT_MAX ->
  0 <= float_to_int (S754_finite false mm e) <= N.
Proof.
  intros Hv HN. cbn [float_to_int].
  set (v := if 0 <=? e then Z.shiftl (Z.pos mm) e else Z.shiftr (Z.pos mm) (- e)).
  assert (Hv' : 0 <= v <= N).
  { unfold v. destruct (Z.leb_spec 0 e) as [He|He].
    - rewrite Z.shiftl_mul_pow2 by lia.
      assert (0 < 2 ^ e) by (apply Z.pow_pos_nonneg; lia). split; [nia|].
      assert (Hq : (F2Q (Z.pos mm * 2 ^ e) 0 < F2Q (N + 1) 0)%Q).
      { rewrite F2Q_shift by lia. rewrite Z.add_0_l.
        unfold F2Q at 2. simpl Qpower. rewrite Qmult_1_r. exact Hv. }
      unfold F2Q in Hq. simpl Qpower in Hq. rewrite !Qmult_1_r in Hq.
      rewrite <- Zlt_Qlt in Hq. lia.
    - rewrite Z.shiftr_div_pow2 by lia.
      assert (Hp : 0 < 2 ^ (- e)) by (apply Z.pow_pos_nonneg; lia).
      split; [apply Z.div_pos; lia|].
      assert (Hq : (F2Q (Z.pos mm) e < F2Q ((N + 1) * 2 ^ (- e)) e)%Q).
      { rewrite F2Q_shift by lia. replace (e + - e) with 0 by lia.
        unfold F2Q at 2. simpl Qpower. rewrite Qmult_1_r. exact Hv. }
      assert (Hz : Z.pos mm < (N + 1) * 2 ^ (- e)).
      { destruct (Z_lt_le_dec (Z.pos mm) ((N + 1) * 2 ^ (- e))) as [H|H]; [exact H|].
        apply (F2Q_le_mono _ _ e) in H. lra. }
      assert (Z.pos mm / 2 ^ (- e) < N + 1) by (apply Z.div_lt_upper_bound; lia).
      lia. }
  cbv zeta. fold v.
  assert (HI : (INT_MIN <=? v) && (v <=? INT_MAX) = true).
  { apply andb_true_iff. split; [apply Z.leb_le; unfold INT_MIN; lia | apply Z.leb_le; lia]. }
  rewrite HI. exact Hv'.
Qed.

Lemma F2Q_mul a ea b eb : (F2Q (a * b) (ea + eb) == F2Q a ea * F2Q b eb)%Q.
Proof.
  unfold F2Q. rewrite inject_Z_mult, Qpower_plus by apply two_ne0. ring.
Qed.

Lemma F2Q_pos (mm : positive) e : (0 < F2Q (Z.pos mm) e)%Q.
Proof.
  unfold F2Q. apply Qmult_lt_0_compat; [|apply pow2_pos].
  change 0%Q with (inject_Z 0). rewrite <- Zlt_Qlt. lia.
Qed.

(** The product of a float and a factor of [[0, 1]] stays below the float. *)
Lemma mul_below sx (mc : positive) ec (mt : positive) et :
  Z.pos mc < 2 ^ 24 -> -149 <= ec <= 104 -> et <= 0 ->
  (F2Q (Z.pos mt) et <= 1)%Q ->
  rounds_below sx (F2Q (Z.pos mc) ec)
    (binary_round_aux 24 128 sx (Z.pos (mc * mt)) (ec + et) loc_Exact).
Proof.
  intros Hc Hec Het Ht. apply round_aux_below; try lia.
  rewrite Pos2Z.inj_mul, F2Q_mul.
  pose proof (F2Q_pos mc ec) as Hp.
  rewrite <- (Qmult_1_r (F2Q (Z.pos mc) ec)) at 2.
  rewrite !(Qmult_comm (F2Q (Z.pos mc) ec)).
  apply Qmult_le_compat_r; [exact Ht | apply Qlt_le_weak; exact Hp].
Qed.

(** The factor [std::min(1.0f, pixel)] of a pixel that is not negative. *)
Lemma std_min_unit p :
  valid32 p = true -> not_negative p = true ->
  (exists s, std_min F32.one p = S754_zero s) \/
  (exists mt et, std_min F32.one p = S754_finite false mt et /\
                 et <= 0 /\ (F2Q (Z.pos mt) et <= 1)%Q).
Proof.
  intros Hv Hn. unfold std_min.
  destruct p as [s|[|]| |[|] mp ep]; try discriminate.
  - left. exists s. reflexivity.
  - right. exists 8388608%positive, (-23). repeat split; evaluate.
  - right. exists 8388608%positive, (-23). repeat split; evaluate.
  - destruct (S754_finite false mp ep <? F32.one)%f32 eqn:E.
    + right. exists mp, ep. split; [reflexivity|].
      pose proof (ltb_value mp ep 8388608 (-23) Hv eq_refl E) as Hlt.
      split.
      * destruct (Z_le_gt_dec ep 0) as [H|H]; [exact H|]. exfalso.
        pose proof (F2Q_ge_pow mp ep) as Hg.
        assert (H1 : ((2 # 1) ^ 0 <= (2 # 1) ^ ep)%Q)
          by (apply Qpower_le_compat_l; [lia | discriminate]).
        assert (H2 : (F2Q 8388608 (-23) == 1)%Q) by reflexivity.
        change ((2 # 1) ^ 0)%Q with 1%Q in H1. lra.
      * assert (H2 : (F2Q 8388608 (-23) == 1)%Q) by reflexivity. lra.
    + right. exists 8388608%positive, (-23). repeat split; evaluate.
Qed.

Lemma rounds_below_byte sx B r N :
  rounds_below sx B r -> sx = false -> (B < inject_Z (N + 1))%Q -> 0 <= N <= 255 ->
  0 <= float_to_uchar r <= N.
Proof.
  intros Hr -> HB HN. unfold float_to_uchar.
  destruct r as [s| | |s mm e]; cbn [rounds_below] in Hr; try contradiction.
  - cbn [float_to_int]. rewrite Z.mod_0_l by lia. lia.
  - destruct Hr as (-> & Hle & _).
    pose proof (float_to_int_below mm e N ltac:(lra) ltac:(unfold INT_MAX; lia)) as H.
    rewrite Z.mod_small by lia. exact H.
Qed.

Lemma channel_bounds p :
  valid32 p = true -> not_negative p = true ->
  channel 0 p = 0 /\ 0 <= channel 1 p <= 196 /\ 0 <= channel 2 p <= 204.
Proof.
  intros Hv Hn. unfold channel.
  change (F32.of_Z 255 * nth 0 color F32.zero)%f32 with (S754_zero false).
  change (F32.of_Z 255 * nth 1 color F32.zero)%f32 with (S754_finite false 12867993 (-16)).
  change (F32.of_Z 255 * nth 2 color F32.zero)%f32 with (S754_finite false 13369344 (-16)).
  destruct (std_min_unit p Hv Hn) as [[s ->]|(mt & et & -> & Het & Ht)].
  - destruct s; repeat split; evaluate.
  - split; [reflexivity|]. split.
    + apply (rounds_below_byte false (F2Q 12867993 (-16))); try lia.
      * apply (mul_below false 12867993 (-16) mt et); try lia; exact Ht.
      * evaluate.
    + apply (rounds_below_byte false (F2Q 13369344 (-16))); try lia.
      * apply (mul_below false 13369344 (-16) mt et); try lia; exact Ht.
      * evaluate.
Qed.

(** X8. The bytes of a well-formed pixel that is not negative (a zero, a
    positive float, [+infinity] or a NaN): the red byte is [0], the green one
    is at most [196] and the blue one at most [204]. *)
Theorem channel_range p :
  valid32 p = true -> not_negative p = true ->
  channel 0 p = 0 /\ 0 <= channel 1 p <= 196 /\ 0 <= channel 2 p <= 204.
Proof. intros Hv Hn. apply channel_bounds; assumption. Qed.

(** ** The passes and the file *)

Section Image.

Variables (lm : Libm) (src : nat -> F32.t).

Lemma pass_total fuel recs size i :
  (3 <= fuel)%nat ->
  exists a j,
    MCSimulation lm fuel recs size src i = (Some a, j) /\
    Z.of_nat i + 1000000 <= Z.of_nat j <= Z.of_nat i + 10000000.
Proof.
  intros Hfuel. unfold MCSimulation.
  destruct (photons_draws lm size src fuel
              {| Rd := F32.zero; Tt := F32.zero; records := recs |} i Hfuel nrPhotons)
    as (a & j & Hrun & Hj).
  exists a, j. split; [exact Hrun|]. change (Z.of_N nrPhotons) with 1000000 in Hj. lia.
Qed.

Lemma passes_spec fuel size n i recs pixels j0 :
  (3 <= fuel)%nat ->
  exists R P j,
    passes lm fuel size n i recs pixels src j0 = (Some (R, P), j) /\
    (n = O -> R = recs /\ P = pixels) /\
    (n <> O -> forall k, 0 <= k < size * size ->
                         P k = (R k / F32.of_Z (i + Z.of_nat n - 1))%f32) /\
    (forall k, ~ 0 <= k < size * size -> P k = pixels k) /\
    Z.of_nat j0 + 1000000 * Z.of_nat n <= Z.of_nat j
      <= Z.of_nat j0 + 10000000 * Z.of_nat n.
Proof.
  intros Hfuel. revert i recs pixels j0.
  induction n as [|n IH]; intros i recs pixels j0.
  - exists recs, pixels, j0. cbn [passes]. unfold ret.
    split; [reflexivity|]. split; [auto|]. split; [congruence|]. split; [reflexivity | lia].
  - cbn [passes]. unfold bind.
    destruct (pass_total fuel recs size j0 Hfuel) as (a & j1 & Hrun & Hj1).
    rewrite Hrun.
    destruct (IH (i + 1) (records a) (normalise size i (records a) pixels) j1)
      as (R & P & j & Hp & H0 & Hn & Hout & Hj).
    exists R, P, j. split; [exact Hp|]. split; [discriminate|]. split; [|split].
    + intros _ k Hk. destruct n as [|n].
      * destruct (H0 eq_refl) as [-> ->]. unfold normalise.
        replace ((0 <=? k) && (k <? size * size)) with true
          by (symmetry; apply andb_true_iff; split; [apply Z.leb_le | apply Z.ltb_lt]; lia).
        do 2 f_equal. lia.
      * rewrite (Hn ltac:(discriminate) k Hk). do 2 f_equal. lia.
    + intros k Hk. rewrite (Hout k Hk). unfold normalise.
      replace ((0 <=? k) && (k <? size * size)) with false; [reflexivity|].
      symmetry. apply andb_false_iff.
      destruct (Z.leb_spec 0 k); [right; apply Z.ltb_ge; lia | left; reflexivity].
    + lia.
Qed.


Lemma payload_length size pixels :
  length (payload size pixels) = (3 * Z.to_nat (size * size))%nat.
Proof.
  unfold payload.
  assert (H : forall l : list nat,
             length (flat_map (fun k => [channel 0 (pixels (Z.of_nat k));
                                         channel 1 (pixels (Z.of_nat k));
                                         channel 2 (pixels (Z.of_nat k))]) l)
             = (3 * length l)%nat).
  { induction l as [|k l IH]; [reflexivity|].
    cbn [flat_map app length]. rewrite IH. lia. }
  rewrite H, length_seq. reflexivity.
Qed.

(** X10. [main] ends for every content of the two buffers and every sequence
    of deviates.  It runs 63 passes, so it consumes between 63 and 630 million
    deviates, and every pixel of the grid is the cell of the buffer divided by
    63.  The file holds the header ["P6\n512 512\n255\n"] and three bytes per
    pixel, [15 + 3 * 512 * 512] bytes in all. *)
Theorem main_image fuel recs pixels i :
  (3 <= fuel)%nat ->
  exists R P j,
    passes lm fuel 512 63 1 recs pixels src i = (Some (R, P), j) /\
    main lm fuel recs pixels src i = (Some (header 512 ++ payload 512 P), j) /\
    (forall k, 0 <= k < 512 * 512 -> P k = (R k / F32.of_Z 63)%f32) /\
    header 512 = [80; 54; 10; 53; 49; 50; 32; 53; 49; 50; 10; 50; 53; 53; 10] /\
    Z.of_nat (length (header 512 ++ payload 512 P)) = 15 + 3 * 512 * 512 /\
    Z.of_nat i + 63000000 <= Z.of_nat j <= Z.of_nat i + 630000000.
Proof.
  intros Hfuel.
  destruct (passes_spec fuel 512 63 1 recs pixels i Hfuel)
    as (R & P & j & Hp & _ & Hn & _ & Hj).
  exists R, P, j. split; [exact Hp|]. split.
  - unfold main. cbv zeta. change (Z.to_nat (64 - 1)) with 63%nat.
    unfold bind. rewrite Hp. reflexivity.
  - split; [intros k Hk; apply (Hn ltac:(discriminate) k Hk)|].
    split; [reflexivity|]. split; [|lia].
    rewrite length_app, payload_length.
    change (length (header 512)) with 15%nat. lia.
Qed.

End Image.

(** ** Sums and differences *)

Lemma round_below sx (m : positive) e Mb eb :
  0 <= Mb < 2 ^ 24 -> -149 <= eb <= 104 -> e <= 104 ->
  (F2Q (Z.pos m) e <= F2Q Mb eb)%Q ->
  rounds_below sx (F2Q Mb eb) (binary_round 24 128 sx m e).
Proof.
  intros HMb Heb He Hm. unfold binary_round.
  set (e' := fexp 24 128 (Z.pos (digits2_pos m) + e)).
  unfold shl_align. destruct (e' - e) as [|p|p] eqn:E.
  - apply round_aux_below; assumption.
  - apply round_aux_below; assumption.
  - apply round_aux_below; try assumption; [lia|].
    pose proof (shl_align_value m e e' ltac:(lia)) as Hv.
    unfold shl_align in Hv. rewrite E in Hv. cbn [fst] in Hv. rewrite Hv. exact Hm.
Qed.

Lemma round_aux_signed sx mz ez lz :
  0 <= mz -> signed sx (binary_round_aux 24 128 sx mz ez lz).
Proof.
  intros H0. unfold binary_round_aux.
  pose proof (shr_fexp_digits mz ez lz H0) as H1.
  destruct (shr_fexp 24 128 mz ez lz) as [mrs1 e1].
  destruct H1 as (Hp1 & _).
  pose proof (rne_range (shr_m mrs1) (loc_of_shr_record mrs1)) as Hr.
  set (m2 := round_nearest_even (shr_m mrs1) (loc_of_shr_record mrs1)) in *.
  pose proof (shr_fexp_digits m2 e1 loc_Exact ltac:(lia)) as H3.
  destruct (shr_fexp 24 128 m2 e1 loc_Exact) as [mrs3 e3].
  destruct H3 as (Hp3 & _).
  destruct (shr_m mrs3) as [|q|q]; [reflexivity| |lia].
  destruct (e3 <=? 128 - 24); reflexivity.
Qed.

Lemma round_signed sx m e : signed sx (binary_round 24 128 sx m e).
Proof.
  unfold binary_round.
  destruct (shl_align m e (fexp 24 128 (Z.pos (digits2_pos m) + e))) as [mz ez].
  apply round_aux_signed. lia.
Qed.

(** The aligned mantissas of a sum. *)
Lemma aligned mx ex my ey :
  let ez := Z.min ex ey in
  exists ax ay : positive,
    fst (shl_align mx ex ez) = ax /\ fst (shl_align my ey ez) = ay /\
    (F2Q (Z.pos ax) ez == F2Q (Z.pos mx) ex)%Q /\
    (F2Q (Z.pos ay) ez == F2Q (Z.pos my) ey)%Q.
Proof.
  intros ez. exists (fst (shl_align mx ex ez)), (fst (shl_align my ey ez)).
  split; [reflexivity|]. split; [reflexivity|].
  split; apply shl_align_value; unfold ez; lia.
Qed.

(** ** The isotropic branch of the sampler *)

Lemma rounds_below_one sx r : rounds_below sx (F2Q 8388608 (-23)) r -> unit_magnitude r.
Proof.
  destruct r as [s| | |s mm e]; cbn [rounds_below unit_magnitude]; auto.
  intros (_ & H & _). assert (E : (F2Q 8388608 (-23) == 1)%Q) by reflexivity. lra.
Qed.

Lemma sub_one_unit mt et :
  et <= 104 -> (F2Q (Z.pos mt) et <= 2)%Q ->
  unit_magnitude (S754_finite false mt et - F32.one)%f32.
Proof.
  intros Het Ht. change F32.one with (S754_finite false 8388608 (-23)).
  unfold F32.sub. cbn [SFsub cond_Zopp]. cbv zeta.
  destruct (aligned mt et 8388608 (-23)) as (ax & ay & -> & -> & Vx & Vy).
  set (ez := Z.min et (-23)) in *.
  assert (E1 : (F2Q 8388608 (-23) == 1)%Q) by reflexivity.
  assert (Hez : ez <= 104) by (unfold ez; lia).
  destruct (Z.pos ax - Z.pos ay) as [|q|q] eqn:Ed; cbn [binary_normalize].
  - exact I.
  - apply (rounds_below_one false). apply round_below; try lia.
    assert (Hq : (F2Q (Z.pos q) ez == F2Q (Z.pos ax) ez - F2Q (Z.pos ay) ez)%Q).
    { rewrite <- Ed. unfold F2Q. unfold Z.sub. rewrite inject_Z_plus, inject_Z_opp. ring. }
    rewrite Hq, Vx, Vy. lra.
  - apply (rounds_below_one true). apply round_below; try lia.
    assert (Hq : (F2Q (Z.pos q) ez == F2Q (Z.pos ay) ez - F2Q (Z.pos ax) ez)%Q).
    { replace (Z.pos q) with (Z.pos ay - Z.pos ax) by lia.
      unfold F2Q. unfold Z.sub. rewrite inject_Z_plus, inject_Z_opp. ring. }
    pose proof (F2Q_pos mt et) as Hp.
    rewrite Hq, Vx, Vy. lra.
Qed.

Lemma unit_magnitude_value r :
  unit_magnitude r -> is_finite r = true /\ (- 1 <= B2Q r <= 1)%Q.
Proof.
  destruct r as [s| | |s mm e]; cbn [unit_magnitude is_finite B2Q]; try contradiction.
  - intros _. split; [reflexivity | lra].
  - intros H. split; [reflexivity|]. pose proof (F2Q_pos mm e) as Hp.
    destruct s; [|lra].
    assert (E : (F2Q (Z.neg mm) e == - F2Q (Z.pos mm) e)%Q).
    { unfold F2Q. change (Z.neg mm) with (- Z.pos mm). rewrite inject_Z_opp. ring. }
    rewrite E. lra.
Qed.

(** X11. The isotropic branch: for [g = 0] and a well-formed deviate of
    [[0, 1)] the sampler returns a finite cosine of magnitude at most [1], and
    consumes one deviate. *)
Theorem GetCosTheta_isotropic src i :
  valid32 (src i) = true -> unit_deviate (src i) = true ->
  let c := fst (GetCosTheta F32.zero src i) in
  is_finite c = true /\ (- 1 <= B2Q c <= 1)%Q /\
  snd (GetCosTheta F32.zero src i) = S i.
Proof.
  intros Hv Hu. cbv zeta.
  change (GetCosTheta F32.zero src i) with ((F32.two * src i - F32.one)%f32, S i).
  cbn [fst snd]. rewrite <- and_assoc. split; [|reflexivity].
  apply unit_magnitude_value.
  unfold unit_deviate in Hu. apply andb_true_iff in Hu. destruct Hu as [Hge Hlt].
  destruct (src i) as [s|s| |[|] mx ex]; try discriminate.
  - destruct s; evaluate.
  - pose proof (ltb_value mx ex 8388608 (-23) Hv eq_refl Hlt) as Hval.
    destruct (valid_digits mx ex false Hv) as (_ & Hex & _).
    assert (E1 : (F2Q 8388608 (-23) == 1)%Q) by reflexivity.
    assert (E2 : (F2Q 8388608 (-22) == 2)%Q) by reflexivity.
    pose proof (round_aux_below false (8388608 * mx) (-22 + ex) 8388608 (-22)
                  ltac:(lia) ltac:(lia) ltac:(lia)) as Hr.
    change (F32.two * S754_finite false mx ex)%f32
      with (binary_round_aux 24 128 false (Z.pos (8388608 * mx)) (-22 + ex) loc_Exact).
    destruct (binary_round_aux 24 128 false (Z.pos (8388608 * mx)) (-22 + ex) loc_Exact)
      as [s| | |s mt et]; cbn [rounds_below] in Hr.
    + destruct s; evaluate.
    + exfalso. apply Hr. rewrite Pos2Z.inj_mul, F2Q_mul, E2. lra.
    + exfalso. apply Hr. rewrite Pos2Z.inj_mul, F2Q_mul, E2. lra.
    + destruct Hr as (-> & Ht & Het); [rewrite Pos2Z.inj_mul, F2Q_mul, E2; lra|].
      apply sub_one_unit; [exact Het | rewrite E2 in Ht; exact Ht].
Qed.

(** ** The offsets written *)

Lemma signed_upto B r : signed true r -> upto B r.
Proof.
  destruct r as [s|s| |s mm e]; cbn [signed upto]; try contradiction; intros ->; exact I.
Qed.

Lemma rounds_below_upto B B' r :
  rounds_below false B r -> (B <= B')%Q -> upto B' r.
Proof.
  destruct r as [s| | |s mm e]; cbn [rounds_below upto]; try contradiction; auto.
  intros (-> & H & He) HB. split; [lra | exact He].
Qed.

Lemma add_one_upto v :
  valid32 v = true -> (v <? F32.of_Z 512)%f32 = true ->
  upto 513 (v + F32.one)%f32.
Proof.
  intros Hv Hlt. change F32.one with (S754_finite false 8388608 (-23)).
  assert (E1 : (F2Q 8388608 (-23) == 1)%Q) by reflexivity.
  assert (E513 : (F2Q 513 0 == 513)%Q) by reflexivity.
  destruct v as [s|[|]| |[|] mx ex]; try discriminate.
  - cbn. split; [rewrite E1; lra | lia].
  - exact I.
  - (* a negative abscissa *)
    destruct (valid_digits mx ex true Hv) as (_ & Hex & _).
    unfold F32.add. cbn [SFadd cond_Zopp]. cbv zeta.
    destruct (aligned mx ex 8388608 (-23)) as (ax & ay & -> & -> & Vx & Vy).
    set (ez := Z.min ex (-23)) in *.
    destruct (- Z.pos ax + Z.pos ay) as [|q|q] eqn:Ed; cbn [binary_normalize].
    + exact I.
    + apply (rounds_below_upto (F2Q 513 0)); [|rewrite E513; lra].
      apply round_below; try lia.
      assert (Hq : (F2Q (Z.pos q) ez == F2Q (Z.pos ay) ez - F2Q (Z.pos ax) ez)%Q).
      { rewrite <- Ed. unfold F2Q. rewrite inject_Z_plus, inject_Z_opp. ring. }
      pose proof (F2Q_pos mx ex) as Hp. rewrite Hq, Vx, Vy, E513. lra.
    + apply signed_upto. apply round_signed.
  - (* a positive abscissa below 512 *)
    pose proof (ltb_value mx ex 8388608 (-14) Hv eq_refl Hlt) as Hval.
    assert (E512 : (F2Q 8388608 (-14) == 512)%Q) by reflexivity.
    destruct (valid_digits mx ex false Hv) as (_ & Hex & _).
    unfold F32.add. cbn [SFadd cond_Zopp]. cbv zeta.
    destruct (aligned mx ex 8388608 (-23)) as (ax & ay & -> & -> & Vx & Vy).
    set (ez := Z.min ex (-23)) in *.
    change (Z.pos ax + Z.pos ay) with (Z.pos (ax + ay)). cbn [binary_normalize].
    apply (rounds_below_upto (F2Q 513 0)); [|rewrite E513; lra].
    apply round_below; try lia.
    rewrite Pos2Z.inj_add. unfold F2Q at 1. rewrite inject_Z_plus, Qmult_plus_distr_l.
    fold (F2Q (Z.pos ax) ez). fold (F2Q (Z.pos ay) ez).
    rewrite Vx, Vy, E513. lra.
Qed.

(** The result of rounding has at most one digit more before the point than
    the number rounded. *)
Lemma round_aux_digits sx mz ez lz K :
  0 <= mz -> Zdigits2 mz + ez <= K -> -125 <= K <= 126 -> ez <= 103 ->
  match binary_round_aux 24 128 sx mz ez lz with
  | S754_zero s => s = sx
  | S754_finite s m e => s = sx /\ Z.pos (digits2_pos m) + e <= K + 1 /\ e <= 104
  | _ => False
  end.
Proof.
  intros H0 Hd HK He. unfold binary_round_aux.
  pose proof (shr_fexp_digits mz ez lz H0) as H1.
  destruct (shr_fexp 24 128 mz ez lz) as [mrs1 e1].
  destruct H1 as (Hp1 & Hle1 & H1).
  pose proof (rne_range (shr_m mrs1) (loc_of_shr_record mrs1)) as Hr.
  set (m2 := round_nearest_even (shr_m mrs1) (loc_of_shr_record mrs1)) in *.
  assert (H2 : 0 <= m2 /\ Zdigits2 m2 + e1 <= K + 1 /\ e1 <= 103).
  { split; [lia|].
    destruct H1 as [(-> & Hm & _ & Hf)|(-> & Hlt & Hm)].
    - split; [|exact He].
      destruct mz as [|q|q]; [|clear Hm|lia].
      + assert (Zdigits2 m2 <= 1) by (apply Zdigits2_le; lia). cbn [Zdigits2] in Hd. lia.
      + cbn [Zdigits2] in Hd. pose proof (digits2_pos_gt q) as Hq.
        assert (Zdigits2 m2 <= Z.pos (digits2_pos q) + 1).
        { apply Zdigits2_le; [lia|]. rewrite Z.pow_add_r, Z.pow_1_r by lia. lia. }
        lia.
    - assert (Zdigits2 m2 <= 25) by (apply Zdigits2_le; lia).
      unfold fexp, emin. lia. }
  destruct H2 as (Hm2 & Hd2 & He1).
  pose proof (shr_fexp_digits m2 e1 loc_Exact Hm2) as H3.
  destruct (shr_fexp 24 128 m2 e1 loc_Exact) as [mrs3 e3].
  destruct H3 as (Hp3 & Hle3 & H3).
  destruct (shr_m mrs3) as [|q|q] eqn:E3; [reflexivity| |lia].
  assert (Hq : Z.pos (digits2_pos q) + e3 <= K + 1 /\ e3 <= 104).
  { destruct H3 as [(-> & Hm & _)|(-> & Hlt & Hm)].
    - rewrite <- Hm in Hd2. cbn [Zdigits2] in Hd2. lia.
    - assert (Zdigits2 (Z.pos q) <= 24) by (apply Zdigits2_le; lia).
      cbn [Zdigits2] in *. unfold fexp, emin. lia. }
  replace (e3 <=? 128 - 24) with true by (symmetry; apply Z.leb_le; lia).
  split; [reflexivity | exact Hq].
Qed.

(** The quotient of a mantissa by [2.0f] before rounding. *)
Lemma div_core_two (mm : positive) e K :
  Z.pos (digits2_pos mm) + e <= K -> -125 <= K <= 127 ->
  let '(q, e', l) := SFdiv_core_binary 24 128 (Z.pos mm) e (Z.pos 8388608) (-22) in
  0 <= q /\ Zdigits2 q + e' <= K - 1 /\ e' <= 103.
Proof.
  intros Hd HK. unfold SFdiv_core_binary.
  change (Zdigits2 (Z.pos 8388608)) with 24. cbn [Zdigits2].
  set (d1 := Z.pos (digits2_pos mm)) in *.
  set (e' := Z.min (fexp 24 128 (d1 + e - (24 + -22))) (e - -22)).
  set (s := e - -22 - e').
  assert (He' : e' <= K - 26 \/ e' <= -149) by (unfold e', fexp, emin; lia).
  assert (Hs : 0 <= s) by (unfold s, e'; lia).
  set (m' := match s with Z.pos _ => Z.shiftl (Z.pos mm) s | 0 => Z.pos mm | Z.neg _ => 0 end).
  assert (Hm' : 0 <= m' < 2 ^ (d1 + s)).
  { pose proof (digits2_pos_gt mm) as Hg. fold d1 in Hg.
    unfold m'. destruct s as [|sp|sp] eqn:Es; [rewrite Z.add_0_r; lia| |lia].
    rewrite Z.shiftl_mul_pow2 by lia. rewrite Z.pow_add_r by lia.
    assert (0 < 2 ^ Z.pos sp) by (apply Z.pow_pos_nonneg; lia). nia. }
  pose proof (Z_div_mod m' 8388608 ltac:(lia)) as Hdiv.
  destruct (Z.div_eucl m' 8388608) as [q r]. destruct Hdiv as [Hq Hr].
  assert (Hq0 : 0 <= q) by nia.
  split; [exact Hq0|]. split; [|lia].
  destruct (Z_le_gt_dec 23 (d1 + s)) as [Hbig|Hsmall].
  - assert (Hlt : q < 2 ^ (d1 + s - 23)).
    { assert (E : 2 ^ (d1 + s) = 2 ^ (d1 + s - 23) * 2 ^ 23).
      { rewrite <- Z.pow_add_r by lia. f_equal. lia. }
      change (2 ^ 23) with 8388608 in E. nia. }
    assert (Zdigits2 q <= d1 + s - 23) by (apply Zdigits2_le; lia).
    unfold s in *. lia.
  - assert (Hp : 2 ^ (d1 + s) <= 2 ^ 22) by (apply Z.pow_le_mono_r; lia).
    change (2 ^ 22) with 4194304 in Hp.
    assert (q = 0) by nia. subst q. cbn [Zdigits2]. lia.
Qed.

Lemma digits_value (mm : positive) e K :
  Z.pos (digits2_pos mm) + e <= K -> (F2Q (Z.pos mm) e <= (2 # 1) ^ K)%Q.
Proof.
  intros Hd. pose proof (digits2_pos_gt mm) as Hg.
  set (dg := Z.pos (digits2_pos mm)) in *.
  apply Qle_trans with ((2 # 1) ^ (dg + e))%Q.
  - rewrite Qpower_plus by apply two_ne0. unfold F2Q.
    apply Qmult_le_compat_r; [|apply Qlt_le_weak, pow2_pos].
    rewrite <- (Zpower_Qpower 2 dg) by (unfold dg; lia). rewrite <- Zle_Qle. lia.
  - apply Qpower_le_compat_l; [lia | discriminate].
Qed.

Lemma value_digits (mm : positive) e K :
  (F2Q (Z.pos mm) e < (2 # 1) ^ K)%Q -> Z.pos (digits2_pos mm) + e <= K.
Proof.
  intros Hv. pose proof (F2Q_ge_digits mm e) as Hg.
  assert (H : ((2 # 1) ^ (Z.pos (digits2_pos mm) - 1 + e) < (2 # 1) ^ K)%Q) by lra.
  apply pow2_lt_inv in H. lia.
Qed.

Lemma div_core_nonneg (m1 m2 : positive) e1 e2 :
  0 <= fst (fst (SFdiv_core_binary 24 128 (Z.pos m1) e1 (Z.pos m2) e2)).
Proof.
  unfold SFdiv_core_binary.
  set (s := _ - _ - _).
  set (m' := match s with Z.pos _ => Z.shiftl (Z.pos m1) s | 0 => Z.pos m1 | Z.neg _ => 0 end).
  assert (Hm' : 0 <= m').
  { unfold m'. destruct s; try lia. apply Z.shiftl_nonneg. lia. }
  pose proof (Z_div_mod m' (Z.pos m2) ltac:(lia)) as Hdiv.
  destruct (Z.div_eucl m' (Z.pos m2)) as [q r]. cbn [fst]. nia.
Qed.

Lemma div_two_upto t :
  upto 513 t -> upto 1024 (t / slabSize)%f32.
Proof.
  change slabSize with (S754_finite false 8388608 (-22)).
  unfold F32.div, F32.prec, F32.emax.
  destruct t as [s|[|]| |[|] mt et]; cbn [upto]; try contradiction; intros Ht.
  - exact I.
  - exact I.
  - cbn [SFdiv xorb].
    pose proof (div_core_nonneg mt 8388608 et (-22)) as H.
    destruct (SFdiv_core_binary 24 128 (Z.pos mt) et (Z.pos 8388608) (-22)) as [[q e'] lz].
    apply signed_upto. apply round_aux_signed. exact H.
  - destruct Ht as [Ht Het].
    assert (Hd : Z.pos (digits2_pos mt) + et <= 10).
    { apply value_digits. change ((2 # 1) ^ 10)%Q with 1024%Q. lra. }
    cbn [SFdiv xorb].
    pose proof (div_core_two mt et 10 Hd ltac:(lia)) as H.
    destruct (SFdiv_core_binary 24 128 (Z.pos mt) et (Z.pos 8388608) (-22)) as [[q e'] lz].
    destruct H as (H0 & Hq & He').
    pose proof (round_aux_digits false q e' lz 9 H0 ltac:(lia) ltac:(lia) He') as Hr.
    destruct (binary_round_aux 24 128 false q e' lz) as [s| | |s m3 e3];
      try contradiction; [exact I|].
    destruct Hr as (-> & Hd3 & He3). split; [|exact He3].
    change 1024%Q with ((2 # 1) ^ 10)%Q. apply digits_value. lia.
Qed.

Lemma mul_size_upto t :
  upto 1024 t -> upto 524288 (t * F32.of_Z 512)%f32.
Proof.
  change (F32.of_Z 512) with (S754_finite false 8388608 (-14)).
  unfold F32.mul, F32.prec, F32.emax.
  destruct t as [s|[|]| |[|] mt et]; cbn [upto]; try contradiction; intros Ht.
  - exact I.
  - exact I.
  - cbn [SFmul xorb]. apply signed_upto. apply round_aux_signed. lia.
  - destruct Ht as [Ht Het]. cbn [SFmul xorb].
    assert (E1 : (F2Q 8388608 (-14) == 512)%Q) by reflexivity.
    assert (E2 : (F2Q 8388608 (-4) == 524288)%Q) by reflexivity.
    apply (rounds_below_upto (F2Q 8388608 (-4))); [|rewrite E2; lra].
    apply round_aux_below; try lia.
    rewrite Pos2Z.inj_mul, F2Q_mul, E1, E2. lra.
Qed.

Lemma float_to_int_range f : INT_MIN <= float_to_int f <= INT_MAX.
Proof.
  destruct f as [s|s| |s mm e]; cbn [float_to_int]; try (unfold INT_MIN, INT_MAX; lia).
  cbv zeta.
  destruct ((INT_MIN <=? _) && (_ <=? INT_MAX)) eqn:E; [|unfold INT_MIN, INT_MAX; lia].
  apply andb_true_iff in E. destruct E as [E1 E2].
  apply Z.leb_le in E1. apply Z.leb_le in E2. lia.
Qed.

Lemma float_to_int_upto t : upto 524288 t -> float_to_int t <= 524288.
Proof.
  destruct t as [s|[|]| |[|] mt et]; cbn [upto]; try contradiction; intros Ht.
  - cbn. lia.
  - cbn. unfold INT_MIN. lia.
  - cbn [float_to_int]. cbv zeta.
    set (v := if 0 <=? et then Z.shiftl (Z.pos mt) et else Z.shiftr (Z.pos mt) (- et)).
    assert (0 <= v).
    { unfold v. destruct (0 <=? et); [apply Z.shiftl_nonneg | apply Z.shiftr_nonneg]; lia. }
    destruct ((INT_MIN <=? - v) && (- v <=? INT_MAX)); [lia | unfold INT_MIN; lia].
  - destruct Ht as [Ht _].
    apply (float_to_int_below mt et 524288); [|unfold INT_MAX; lia].
    change (inject_Z (524288 + 1)) with 524289%Q. lra.
Qed.

(** X12. With the grid of [main], [size = 512], every write of line 89 stays
    inside the buffer of [3 * size * size] floats that [main] allocates: when
    the guard of line 88 holds for a photon with a well-formed abscissa, the
    row is in the grid, the column is not negative, the offset is
    [yi * size + xi] without wrap-around and lies below [3 * 512 * 512]. *)
Theorem deposit_in_buffer p :
  valid32 (x p) = true -> deposit_guard 512 p = true ->
  0 <= cell 512 (y p) < 512 /\ 0 <= cell 512 (x p) <= 524288 /\
  deposit_index 512 p = cell 512 (y p) * 512 + cell 512 (x p) /\
  0 <= deposit_index 512 p < 3 * 512 * 512.
Proof.
  intros Hv Hg. unfold deposit_guard in Hg.
  repeat (apply andb_true_iff in Hg; destruct Hg as [Hg ?]).
  match goal with H : (to_u32 _ <? 512) = true |- _ => apply Z.ltb_lt in H; rename H into Hy end.
  match goal with H : (0 <=? cell 512 (y p)) = true |- _ => apply Z.leb_le in H; rename H into Hy0 end.
  match goal with H : (0 <=? cell 512 (x p)) = true |- _ => apply Z.leb_le in H; rename H into Hx0 end.
  match goal with H : (x p <? F32.of_Z 512)%f32 = true |- _ => rename H into Hx end.
  assert (Hxi : cell 512 (x p) <= 524288).
  { unfold cell. change (slabSize / F32.two)%f32 with F32.one.
    apply float_to_int_upto, mul_size_upto, div_two_upto, add_one_upto; assumption. }
  pose proof (float_to_int_range ((y p + slabSize / F32.two) / slabSize * F32.of_Z 512)%f32)
    as Hr. fold (cell 512 (y p)) in Hr. unfold INT_MIN, INT_MAX in Hr.
  unfold to_u32 in Hy. rewrite Z.mod_small in Hy by lia.
  assert (Hidx : deposit_index 512 p = cell 512 (y p) * 512 + cell 512 (x p)).
  { unfold deposit_index, to_u32.
    rewrite (Z.mod_small (cell 512 (y p))) by lia.
    rewrite (Z.mod_small (cell 512 (x p))) by lia.
    rewrite (Z.mod_small (cell 512 (y p) * 512)) by lia.
    apply Z.mod_small. lia. }
  rewrite Hidx. lia.
Qed.

(** ** Well-formed quotients *)

Lemma Zdigits2_eq v k : 0 < k -> 2 ^ (k - 1) <= v < 2 ^ k -> Zdigits2 v = k.
Proof.
  intros Hk [Hlo Hhi].
  assert (0 < 2 ^ (k - 1)) by (apply Z.pow_pos_nonneg; lia).
  assert (Hle : Zdigits2 v <= k) by (apply Zdigits2_le; lia).
  destruct v as [|p|p]; try lia. cbn [Zdigits2] in *.
  pose proof (digits2_pos_gt p) as Hg.
  assert (H1 : 2 ^ (k - 1) < 2 ^ Z.pos (digits2_pos p)) by lia.
  apply Z.pow_lt_mono_r_iff in H1; lia.
Qed.

Lemma Zdigits2_bounds (p : positive) :
  2 ^ (Z.pos (digits2_pos p) - 1) <= Z.pos p < 2 ^ Z.pos (digits2_pos p).
Proof.
  pose proof (digits2_pos_le p). pose proof (digits2_pos_gt p).
  set (dg := Z.pos (digits2_pos p)) in *.
  assert (2 ^ dg = 2 * 2 ^ (dg - 1)).
  { replace dg with (Z.succ (dg - 1)) at 1 by lia. apply Z.pow_succ_r. unfold dg. lia. }
  lia.
Qed.

(** The digits of a mantissa shifted to the right. *)
Lemma Zdigits2_shift (p : positive) n :
  0 <= n -> 0 < Z.pos p / 2 ^ n -> Zdigits2 (Z.pos p / 2 ^ n) = Z.pos (digits2_pos p) - n.
Proof.
  intros Hn Hq. pose proof (Zdigits2_bounds p) as [Hlo Hhi].
  set (dg := Z.pos (digits2_pos p)) in *.
  assert (Hp : 0 < 2 ^ n) by (apply Z.pow_pos_nonneg; lia).
  assert (Hdn : n < dg).
  { destruct (Z_lt_le_dec n dg) as [H|H]; [exact H|]. exfalso.
    assert (2 ^ dg <= 2 ^ n) by (apply Z.pow_le_mono_r; lia).
    rewrite Z.div_small in Hq by lia. lia. }
  apply Zdigits2_eq; [lia|]. split.
  - apply Z.div_le_lower_bound; [lia|].
    rewrite <- Z.pow_add_r by lia. replace (n + (dg - n - 1)) with (dg - 1) by lia. exact Hlo.
  - apply Z.div_lt_upper_bound; [lia|].
    rewrite <- Z.pow_add_r by lia. replace (n + (dg - n)) with dg by lia. exact Hhi.
Qed.

Lemma shr_fexp_exact m e l :
  0 <= m ->
  let '(mrs, e') := shr_fexp 24 128 m e l in
  e' = Z.max e (fexp 24 128 (Zdigits2 m + e)) /\ shr_m mrs = m / 2 ^ (e' - e).
Proof.
  intros H0. unfold shr_fexp, shr.
  destruct (fexp 24 128 (Zdigits2 m + e) - e) as [|n|n] eqn:En.
  - rewrite shr_m_of_loc. split; [lia|].
    replace (e - e) with 0 by lia. rewrite Z.div_1_r. reflexivity.
  - rewrite iter_pos_nat, shr_iter_m, shr_m_of_loc, positive_nat_Z
      by (rewrite shr_m_of_loc; exact H0).
    split; [lia|]. do 2 f_equal. lia.
  - rewrite shr_m_of_loc. split; [lia|].
    replace (e - e) with 0 by lia. rewrite Z.div_1_r. reflexivity.
Qed.

Lemma fexp_mono a b : a <= b -> fexp 24 128 a <= fexp 24 128 b.
Proof. unfold fexp, emin. lia. Qed.

(** A mantissa whose exponent is not above the canonical one rounds to a
    well-formed float. *)
Lemma round_aux_valid sx mz ez lz :
  0 <= mz -> ez <= fexp 24 128 (Zdigits2 mz + ez) ->
  valid32 (binary_round_aux 24 128 sx mz ez lz) = true.
Proof.
  intros H0 He. unfold binary_round_aux.
  pose proof (shr_fexp_exact mz ez lz H0) as H1.
  destruct (shr_fexp 24 128 mz ez lz) as [mrs1 e1].
  destruct H1 as (He1 & Hm1).
  rewrite Z.max_r in He1 by exact He.
  pose proof (rne_range (shr_m mrs1) (loc_of_shr_record mrs1)) as Hr.
  set (m2 := round_nearest_even (shr_m mrs1) (loc_of_shr_record mrs1)) in *.
  assert (Hp1 : 0 <= shr_m mrs1).
  { rewrite Hm1. apply Z.div_pos; [exact H0 | apply Z.pow_pos_nonneg; lia]. }
  assert (H2 : e1 <= fexp 24 128 (Zdigits2 m2 + e1)).
  { destruct (Z.eq_dec (shr_m mrs1) 0) as [Ez|Ez].
    - (* everything was shifted out: the exponent is the smallest one *)
      destruct mz as [|q|q]; [|clear H0|lia].
      + cbn [Zdigits2] in *. unfold fexp, emin in *. lia.
      + assert (Hq : Z.pos q < 2 ^ (e1 - ez)).
        { destruct (Z_lt_le_dec (Z.pos q) (2 ^ (e1 - ez))) as [H|H]; [exact H|].
          assert (0 < 2 ^ (e1 - ez)) by (apply Z.pow_pos_nonneg; lia).
          assert (1 <= Z.pos q / 2 ^ (e1 - ez)) by (apply Z.div_le_lower_bound; lia).
          lia. }
        pose proof (Zdigits2_bounds q) as [Hlo _].
        assert (Hd : 2 ^ (Z.pos (digits2_pos q) - 1) < 2 ^ (e1 - ez)) by lia.
        apply Z.pow_lt_mono_r_iff in Hd; [|lia|lia].
        cbn [Zdigits2] in He1. unfold fexp, emin in *. lia.
    - destruct mz as [|q|q]; [rewrite Z.div_0_l in Hm1 by (apply Z.pow_nonzero; lia); lia| |lia].
      assert (Hd1 : Zdigits2 (shr_m mrs1) = Zdigits2 (Z.pos q) - (e1 - ez)).
      { rewrite Hm1. apply Zdigits2_shift; lia. }
      assert (Hd2 : Zdigits2 (shr_m mrs1) <= Zdigits2 m2).
      { destruct (shr_m mrs1) as [|p1|p1] eqn:E1; [lia| |lia].
        pose proof (Zdigits2_bounds p1) as [Hlo _].
        destruct m2 as [|p2|p2]; try lia. cbn [Zdigits2].
        pose proof (Zdigits2_bounds p2) as [_ Hhi].
        assert (Hlt : 2 ^ (Z.pos (digits2_pos p1) - 1) < 2 ^ Z.pos (digits2_pos p2)) by lia.
        apply Z.pow_lt_mono_r_iff in Hlt; lia. }
      rewrite He1 at 1. apply fexp_mono. lia. }
  pose proof (shr_fexp_exact m2 e1 loc_Exact ltac:(lia)) as H3.
  destruct (shr_fexp 24 128 m2 e1 loc_Exact) as [mrs3 e3].
  destruct H3 as (He3 & Hm3). rewrite Z.max_r in He3 by exact H2.
  destruct (shr_m mrs3) as [|q|q] eqn:E3; [reflexivity| |reflexivity].
  destruct (Z.leb_spec e3 (128 - 24)) as [Hle|Hgt]; [|reflexivity].
  unfold valid32. cbn [valid_binary]. unfold bounded, canonical_mantissa, F32.prec, F32.emax.
  apply andb_true_iff. split; [|apply Z.leb_le; exact Hle].
  apply Z.eqb_eq.
  destruct m2 as [|p2|p2]; [rewrite Z.div_0_l in Hm3 by (apply Z.pow_nonzero; lia); lia| |lia].
  assert (Hd3 : Zdigits2 (Z.pos q) = Zdigits2 (Z.pos p2) - (e3 - e1)).
  { rewrite Hm3. apply Zdigits2_shift; lia. }
  cbn [Zdigits2] in Hd3, He3. rewrite He3 at 2. f_equal. lia.
Qed.

(** The quotient computed by the division core has at least 24 digits unless
    its exponent is the smallest one. *)
Lemma div_core_canonical (m1 m2 : positive) e1 e2 :
  let '(q, e', l) := SFdiv_core_binary 24 128 (Z.pos m1) e1 (Z.pos m2) e2 in
  0 <= q /\ e' <= fexp 24 128 (Zdigits2 q + e').
Proof.
  unfold SFdiv_core_binary. cbn [Zdigits2].
  set (d1 := Z.pos (digits2_pos m1)). set (d2 := Z.pos (digits2_pos m2)).
  set (e' := Z.min (fexp 24 128 (d1 + e1 - (d2 + e2))) (e1 - e2)).
  set (s := e1 - e2 - e').
  assert (Hs : 0 <= s) by (unfold s, e'; lia).
  assert (He' : e' <= -149 \/ 24 <= d1 + s - d2) by (unfold s, e', fexp, emin; lia).
  set (m' := match s with Z.pos _ => Z.shiftl (Z.pos m1) s | 0 => Z.pos m1 | Z.neg _ => 0 end).
  pose proof (Zdigits2_bounds m1) as [Hlo1 _]. fold d1 in Hlo1.
  pose proof (Zdigits2_bounds m2) as [_ Hhi2]. fold d2 in Hhi2.
  assert (Hm' : m' = Z.pos m1 * 2 ^ s).
  { unfold m'. destruct s as [|sp|sp] eqn:Es; [lia| |lia].
    apply Z.shiftl_mul_pow2. lia. }
  assert (Hps : 0 < 2 ^ s) by (apply Z.pow_pos_nonneg; lia).
  pose proof (Z_div_mod m' (Z.pos m2) ltac:(lia)) as Hdiv.
  destruct (Z.div_eucl m' (Z.pos m2)) as [q r]. destruct Hdiv as [Hq Hr].
  assert (Hq0 : 0 <= q) by nia.
  split; [exact Hq0|].
  destruct He' as [Hmin|Hbig]; [unfold fexp, emin; lia|].
  assert (Hk : 2 ^ (d1 - 1 + s - d2) <= q).
  { assert (E : 2 ^ (d1 - 1) * 2 ^ s = 2 ^ (d1 - 1 + s - d2) * 2 ^ d2).
    { rewrite <- !Z.pow_add_r by (unfold d1, d2; lia). f_equal. lia. }
    assert (0 < 2 ^ (d1 - 1 + s - d2)) by (apply Z.pow_pos_nonneg; lia).
    assert (Hge : 2 ^ (d1 - 1 + s - d2) * Z.pos m2 <= m') by nia.
    destruct (Z_le_gt_dec (2 ^ (d1 - 1 + s - d2)) q) as [H1|H1]; [exact H1|]. nia. }
  assert (Hd : 24 <= Zdigits2 q).
  { assert (0 < 2 ^ (d1 - 1 + s - d2)) by (apply Z.pow_pos_nonneg; lia).
    destruct q as [|pq|pq]; try lia. cbn [Zdigits2].
    pose proof (Zdigits2_bounds pq) as [_ Hhi].
    assert (Hlt : 2 ^ (d1 - 1 + s - d2) < 2 ^ Z.pos (digits2_pos pq)) by lia.
    apply Z.pow_lt_mono_r_iff in Hlt; lia. }
  unfold fexp, emin. lia.
Qed.

Lemma of_Z_signed i : 0 < i -> signed false (F32.of_Z i).
Proof.
  intros Hi. destruct i as [|p|p]; try lia.
  unfold F32.of_Z, F32.prec, F32.emax. cbn [binary_normalize]. apply round_signed.
Qed.

(** A quotient is well formed, whatever the operands. *)
Lemma div_valid (a b : F32.t) : valid32 (a / b)%f32 = true.
Proof.
  unfold F32.div, SFdiv, F32.prec, F32.emax.
  destruct a as [sa|sa| |sa ma ea], b as [sb|sb| |sb mb eb]; try reflexivity.
  pose proof (div_core_canonical ma mb ea eb) as H.
  destruct (SFdiv_core_binary 24 128 (Z.pos ma) ea (Z.pos mb) eb) as [[q e'] l].
  destruct H as [Hq He]. apply round_aux_valid; assumption.
Qed.

Lemma div_not_negative (a b : F32.t) :
  not_negative a = true -> signed false b -> not_negative (a / b)%f32 = true.
Proof.
  intros Ha Hb. unfold F32.div, SFdiv, F32.prec, F32.emax.
  destruct a as [[|]|[|]| |[|] ma ea], b as [sb|sb| |sb mb eb];
    cbn [signed not_negative] in *; subst;
    try reflexivity; try discriminate; try contradiction.
  pose proof (div_core_nonneg ma mb ea eb) as H.
  destruct (SFdiv_core_binary 24 128 (Z.pos ma) ea (Z.pos mb) eb) as [[q e'] l].
  cbn [fst] in H. cbn [xorb].
  pose proof (round_aux_signed false q e' l H) as Hs.
  destruct (binary_round_aux 24 128 false q e' l); cbn [signed] in Hs;
    try contradiction; subst; reflexivity.
Qed.

(** X13. The bytes of a pixel of [main]: a cell of the buffer that is not
    negative, divided by the number of a pass, gives a well-formed pixel that
    is not negative, so that its red byte is [0], its green byte at most [196]
    and its blue byte at most [204]. *)
Theorem pixel_bytes (r : F32.t) i :
  0 < i -> not_negative r = true ->
  let p := (r / F32.of_Z i)%f32 in
  valid32 p = true /\ not_negative p = true /\
  channel 0 p = 0 /\ 0 <= channel 1 p <= 196 /\ 0 <= channel 2 p <= 204.
Proof.
  intros Hi Hr p.
  assert (Hv : valid32 p = true) by apply div_valid.
  assert (Hn : not_negative p = true) by (apply div_not_negative; [exact Hr | apply of_Z_signed; exact Hi]).
  split; [exact Hv|]. split; [exact Hn|].
  apply channel_bounds; assumption.
Qed.

(** ** The grid stays not negative *)

Lemma add_not_negative (a b : F32.t) :
  not_negative a = true -> not_negative b = true -> not_negative (a + b)%f32 = true.
Proof.
  intros Ha Hb. unfold F32.add, F32.prec, F32.emax.
  destruct a as [[|]|[|]| |[|] ma ea], b as [[|]|[|]| |[|] mb eb];
    cbn [not_negative] in *; try discriminate; try reflexivity.
  cbn [SFadd cond_Zopp]. cbv zeta.
  destruct (shl_align ma ea (Z.min ea eb)) as [ax ?].
  destruct (shl_align mb eb (Z.min ea eb)) as [ay ?].
  cbn [fst]. change (Z.pos ax + Z.pos ay) with (Z.pos (ax + ay)).
  cbn [binary_normalize].
  pose proof (round_signed false (ax + ay) (Z.min ea eb)) as Hs.
  destruct (binary_round 24 128 false (ax + ay) (Z.min ea eb)); cbn [signed] in Hs;
    try contradiction; subst; reflexivity.
Qed.

Lemma weight_after_not_negative k : not_negative (weight_after k) = true.
Proof. destruct (weight_after_cases k) as [E|[E|[E|E]]]; rewrite E; reflexivity. Qed.

Section Grid.

Variables (lm : Libm) (src : nat -> F32.t).

Lemma exit_photon_grid size q a k :
  weight q = weight_after k ->
  (forall c, not_negative (records a c) = true) ->
  forall c, not_negative (records (exit_photon size q a) c) = true.
Proof.
  intros Hq Ha c.
  destruct (exit_photon_shape size q a) as [(_ & _ & ->)|(_ & _ & [->| ->])]; try apply Ha.
  unfold store. destruct (c =? deposit_index size q); [|apply Ha].
  apply add_not_negative; [apply Ha|]. rewrite Hq. apply weight_after_not_negative.
Qed.

Lemma while_loop_grid size fuel :
  forall k p a i p' a' j, weight p = weight_after k ->
  while_loop lm size fuel p a src i = (Some (p', a'), j) ->
  (forall c, not_negative (records a c) = true) ->
  forall c, not_negative (records a' c) = true.
Proof.
  induction fuel as [|fuel IH]; intros k p a i p' a' j Hw Hrun Ha.
  - cbn [while_loop] in Hrun. destruct (weight p == F32.zero)%f32; unfold ret in Hrun;
      [|discriminate]. injection Hrun as <- <- <-. exact Ha.
  - cbn [while_loop] in Hrun. destruct (weight p == F32.zero)%f32.
    + unfold ret in Hrun. injection Hrun as <- <- <-. exact Ha.
    + unfold bind in Hrun.
      destruct (body lm size p a src i) as [[[f p1] a1] j1] eqn:Hb.
      destruct (body_weight lm size src _ _ _ _ _ _ _ k Hw Hb) as [(-> & -> & ->)|(-> & Hw1)].
      * unfold ret in Hrun. injection Hrun as <- <- <-.
        apply (exit_photon_grid size p a k Hw Ha).
      * destruct f.
        -- apply (IH (S k) p1 a j1 p' a' j Hw1 Hrun Ha).
        -- unfold ret in Hrun. injection Hrun as <- <- <-. exact Ha.
Qed.

Lemma photons_grid size fuel a0 i (n : N) :
  (forall c, not_negative (records a0 c) = true) ->
  forall a j, photons lm size fuel n a0 src i = (Some a, j) ->
  forall c, not_negative (records a c) = true.
Proof.
  intros H0. induction n as [|n IH] using N.peano_ind; intros a j Hrun.
  - unfold photons in Hrun. cbn in Hrun. unfold ret in Hrun.
    injection Hrun as <- <-. exact H0.
  - unfold photons in *. rewrite N.iter_succ in Hrun.
    unfold one_photon at 1 in Hrun. unfold bind at 1 in Hrun.
    destruct (N.iter n (one_photon lm size fuel) (ret (Some a0)) src i) as [[a1|] j1];
      [|unfold ret in Hrun; discriminate].
    unfold bind in Hrun.
    destruct (while_loop lm size fuel photon0 a1 src j1) as [[[p2 a2]|] j2] eqn:Hw;
      unfold ret in Hrun; cbn [option_map snd] in Hrun; [|discriminate].
    injection Hrun as <- <-.
    apply (while_loop_grid size fuel 0 photon0 a1 j1 p2 a2 j2 eq_refl Hw).
    apply (IH a1 j1 eq_refl).
Qed.

Lemma MCSimulation_photons fuel recs size :
  MCSimulation lm fuel recs size
  = photons lm size fuel nrPhotons {| Rd := F32.zero; Tt := F32.zero; records := recs |}.
Proof. reflexivity. Qed.

Lemma pass_grid fuel recs size i a j :
  MCSimulation lm fuel recs size src i = (Some a, j) ->
  (forall c, not_negative (recs c) = true) ->
  forall c, not_negative (records a c) = true.
Proof.
  intros Hm H0. rewrite MCSimulation_photons in Hm.
  apply (photons_grid size fuel {| Rd := F32.zero; Tt := F32.zero; records := recs |}
           i nrPhotons H0 a j Hm).
Qed.

Lemma passes_grid fuel size n :
  (3 <= fuel)%nat ->
  forall i recs pixels j0,
  (forall c, not_negative (recs c) = true) ->
  exists R P j,
    passes lm fuel size n i recs pixels src j0 = (Some (R, P), j) /\
    forall c, not_negative (R c) = true.
Proof.
  intros Hfuel. induction n as [|n IH]; intros i recs pixels j0 H0.
  - exists recs, pixels, j0. split; [reflexivity | exact H0].
  - cbn [passes]. unfold bind.
    destruct (pass_total lm src fuel recs size j0 Hfuel) as (a & j1 & Hrun & _).
    rewrite Hrun.
    apply (IH (i + 1) (records a) (normalise size i (records a) pixels) j1).
    apply (pass_grid fuel recs size j0 a j1 Hrun H0).
Qed.

(** X14. When no cell of the buffer is negative at the start, [main] writes,
    for every pixel, a red byte [0], a green byte of at most [196] and a blue
    byte of at most [204]: no byte of the image is above [204]. *)
Theorem main_bytes fuel recs pixels i :
  (3 <= fuel)%nat ->
  (forall c, not_negative (recs c) = true) ->
  exists P j,
    main lm fuel recs pixels src i = (Some (header 512 ++ payload 512 P), j) /\
    (forall k, 0 <= k < 512 * 512 ->
               channel 0 (P k) = 0 /\ 0 <= channel 1 (P k) <= 196 /\
               0 <= channel 2 (P k) <= 204) /\
    Forall (fun b => 0 <= b <= 204) (payload 512 P).
Proof.
  intros Hfuel H0.
  destruct (passes_spec lm src fuel 512 63 1 recs pixels i Hfuel)
    as (R & P & j & Hp & _ & Hn & _ & _).
  assert (HR : forall c, not_negative (R c) = true).
  { destruct (passes_grid fuel 512 63 Hfuel 1 recs pixels i H0) as (R' & P' & j' & Hp' & HR).
    rewrite Hp in Hp'. injection Hp' as <- _ _. exact HR. }
  assert (Hpix : forall k, 0 <= k < 512 * 512 ->
                   channel 0 (P k) = 0 /\ 0 <= channel 1 (P k) <= 196 /\
                   0 <= channel 2 (P k) <= 204).
  { intros k Hk. rewrite (Hn ltac:(discriminate) k Hk).
    apply channel_bounds; [apply div_valid|].
    apply div_not_negative; [apply HR | apply of_Z_signed; lia]. }
  exists P, j. split; [|split; [exact Hpix|]].
  - unfold main. cbv zeta. change (Z.to_nat (64 - 1)) with 63%nat.
    unfold bind. rewrite Hp. reflexivity.
  - unfold payload. apply Forall_flat_map, Forall_forall. intros k Hk.
    apply in_seq in Hk.
    destruct (Hpix (Z.of_nat k)) as (Hr & Hg & Hb); [lia|].
    repeat constructor; lia.
Qed.

End Grid.

(** ** The further statements at sample data *)

Lemma far_photon_visited : visited libm_tab 512 run2 far_photon.
Proof.
  apply (visited_step libm_tab 512 run2 mid_photon acc0 3%nat Next far_photon acc0 6%nat).
  - apply (visited_step libm_tab 512 run2 photon0 acc0 0%nat Next mid_photon acc0 3%nat).
    + apply visited_init.
    + vm_compute. reflexivity.
    + vm_compute. reflexivity.
  - vm_compute. reflexivity.
  - vm_compute. reflexivity.
Defined.

Lemma walk_length_witness :
  exists r j,
    while_loop libm_tab 512 3 photon0 acc0 run2 0%nat = (Some r, j) /\
    while_loop libm_tab 512 5 photon0 acc0 run2 0%nat = (Some r, j) /\
    (0 + 1 <= j <= 0 + 10)%nat.
Proof.
  apply (walk_length libm_tab 512 run2 5 acc0 0). lia.
Defined.

Lemma pass_draws_witness :
  exists a j,
    MCSimulation libm_tab 3 (fun _ => F32.zero) 512 run2 0%nat = (Some a, j) /\
    Z.of_nat 0 + 1000000 <= Z.of_nat j <= Z.of_nat 0 + 10000000.
Proof.
  apply (pass_draws libm_tab 512 run2 3 (fun _ => F32.zero) 0). lia.
Defined.

Lemma roulette_inert_witness :
  absorb (weight far_photon) = F32.zero /\
  (absorb (weight far_photon) * F32.of_Z m)%f32 = F32.zero.
Proof.
  apply (roulette_inert libm_tab 512 run2 far_photon).
  - exact far_photon_visited.
  - vm_compute. reflexivity.
Defined.

Lemma photon_account_witness :
  exists p' a' j,
    while_loop libm_tab 512 3 photon0 acc0 run2 0%nat = (Some (p', a'), j) /\
    (a' = acc0 \/
     exists w,
       In w [F32.one; S754_finite false 11184810 (-24); S754_finite false 11184809 (-25)] /\
       ((Rd a' = (Rd acc0 + w)%f32 /\ Tt a' = Tt acc0 /\ records a' = records acc0) \/
        (Rd a' = Rd acc0 /\ Tt a' = (Tt acc0 + w)%f32 /\
         (records a' = records acc0 \/
          exists k, records a' = store (records acc0) k (records acc0 k + w)%f32)))).
Proof.
  apply (photon_account libm_tab 512 run2 3 acc0 0). lia.
Defined.

Lemma ballistic_photon_witness :
  while_loop libm_tab 512 1 photon0 acc0 (seq_of [lit 1 128]) 0%nat
    = (Some (photon0,
             {| Rd := Rd acc0; Tt := (Tt acc0 + F32.one)%f32;
                records := store (records acc0) (256 * 512 + 256)
                             (records acc0 (256 * 512 + 256) + F32.one)%f32 |}),
       1%nat).
Proof.
  apply (ballistic_photon libm_tab 0 acc0 (seq_of [lit 1 128]) 0).
  vm_compute. reflexivity.
Defined.

Lemma nan_direction_exits_witness :
  boundary_dist nan_photon = F32.zero /\
  body libm_tab 512 nan_photon acc0 (seq_of [half]) 0%nat
    = (Break, nan_photon, exit_photon 512 nan_photon acc0, 1%nat) /\
  exit_photon 512 nan_photon acc0
    = {| Rd := (Rd acc0 + weight nan_photon)%f32; Tt := Tt acc0;
         records := records acc0 |}.
Proof.
  apply (nan_direction_exits libm_tab 512 (seq_of [half]) nan_photon acc0 0).
  - reflexivity.
  - vm_compute. reflexivity.
Defined.

Lemma channel_range_witness :
  channel 0 half = 0 /\ 0 <= channel 1 half <= 196 /\ 0 <= channel 2 half <= 204.
Proof.
  apply (channel_range half); vm_compute; reflexivity.
Defined.


Lemma main_image_witness :
  exists R P j,
    passes libm_tab 3 512 63 1 (fun _ => F32.zero) (fun _ => F32.zero) run2 0%nat
      = (Some (R, P), j) /\
    main libm_tab 3 (fun _ => F32.zero) (fun _ => F32.zero) run2 0%nat
      = (Some (header 512 ++ payload 512 P), j) /\
    (forall k, 0 <= k < 512 * 512 -> P k = (R k / F32.of_Z 63)%f32) /\
    header 512 = [80; 54; 10; 53; 49; 50; 32; 53; 49; 50; 10; 50; 53; 53; 10] /\
    Z.of_nat (length (header 512 ++ payload 512 P)) = 15 + 3 * 512 * 512 /\
    Z.of_nat 0 + 63000000 <= Z.of_nat j <= Z.of_nat 0 + 630000000.
Proof.
  apply (main_image libm_tab run2 3 (fun _ => F32.zero) (fun _ => F32.zero) 0). lia.
Defined.

Lemma GetCosTheta_isotropic_witness :
  let c := fst (GetCosTheta F32.zero (seq_of [half]) 0%nat) in
  is_finite c = true /\ (- 1 <= B2Q c <= 1)%Q /\
  snd (GetCosTheta F32.zero (seq_of [half]) 0%nat) = 1%nat.
Proof.
  apply (GetCosTheta_isotropic (seq_of [half]) 0); vm_compute; reflexivity.
Defined.

Lemma deposit_in_buffer_witness :
  0 <= cell 512 (y side_photon) < 512 /\ 0 <= cell 512 (x side_photon) <= 524288 /\
  deposit_index 512 side_photon = cell 512 (y side_photon) * 512 + cell 512 (x side_photon) /\
  0 <= deposit_index 512 side_photon < 3 * 512 * 512.
Proof.
  apply (deposit_in_buffer side_photon); vm_compute; reflexivity.
Defined.

Lemma pixel_bytes_witness :
  let p := (half / F32.of_Z 63)%f32 in
  valid32 p = true /\ not_negative p = true /\
  channel 0 p = 0 /\ 0 <= channel 1 p <= 196 /\ 0 <= channel 2 p <= 204.
Proof.
  apply (pixel_bytes half 63); [lia | reflexivity].
Defined.

Lemma main_bytes_witness :
  exists P j,
    main libm_tab 3 (fun _ => F32.zero) (fun _ => F32.zero) run2 0%nat
      = (Some (header 512 ++ payload 512 P), j) /\
    (forall k, 0 <= k < 512 * 512 ->
               channel 0 (P k) = 0 /\ 0 <= channel 1 (P k) <= 196 /\
               0 <= channel 2 (P k) <= 204) /\
    Forall (fun b => 0 <= b <= 204) (payload 512 P).
Proof.
  apply (main_bytes libm_tab run2 3 (fun _ => F32.zero) (fun _ => F32.zero) 0);
    [lia | intros c; reflexivity].
Defined.
